(** * grit-benchmark: the resampling and threshold-scoring core of eval_utils.py

    A shallow embedding of
    [4.applications/grit-informed-aggregation/1.generate-profiles/scripts/eval_utils.py].

    Numbers.  A NumPy float is modelled as an exact rational or NaN
    ([option Q], [None] being NaN): rounding and the infinities are left out,
    NaN and its comparison rules are kept.  Two floats are the same value
    when [feq] relates them (the rationals are compared with [==]).

    Library calls.  [np.nanpercentile], [np.mean], [np.nanmedian],
    [np.fill_diagonal], [np.corrcoef], [random.choices] and the pandas
    operations are modelled after their documented behaviour.  The Pearson
    coefficient of two rows and pycytominer's column classifier are
    parameters of the development. *)

From Stdlib Require Import List String ZArith QArith Qround Bool Lia Lqa Sorted.
From Stdlib Require Import Permutation.
Import ListNotations.
Open Scope string_scope.
Open Scope Z_scope.

(* ------------------------------------------------------------------ *)
(** ** Floats with NaN *)

Module Float.

Definition float := option Q.
Definition NaN : float := None.

(** Same value: NaN with NaN, numbers up to [==]. *)
Definition feq (a b : float) : Prop :=
  match a, b with
  | Some x, Some y => (x == y)%Q
  | None, None => True
  | _, _ => False
  end.

Definition Qlt_bool (x y : Q) : bool := negb (Qle_bool y x).

(** Python [a > b], [a < b], [a <= b] on floats: false as soon as one side is NaN. *)
Definition fgt (a b : float) : bool :=
  match a, b with
  | Some x, Some y => Qlt_bool y x
  | _, _ => false
  end.

Definition flt (a b : float) : bool := fgt b a.


Definition fadd (a b : float) : float :=
  match a, b with
  | Some x, Some y => Some (x + y)%Q
  | _, _ => NaN
  end.

(** [mask.astype(float)] on one boolean. *)
Definition astype_float (b : bool) : float :=
  if b then Some 1%Q else Some 0%Q.

Definition fsum (l : list float) : float := fold_right fadd (Some 0%Q) l.

(** [np.mean]: NaN on an empty array (0/0), NaN as soon as an entry is NaN. *)
Definition np_mean (l : list float) : float :=
  match l with
  | [] => NaN
  | _ => match fsum l with
         | Some s => Some (s / inject_Z (Z.of_nat (List.length l)))%Q
         | None => NaN
         end
  end.

(** The non-NaN entries, in order. *)
Fixpoint drop_nan (l : list float) : list Q :=
  match l with
  | [] => []
  | Some q :: t => q :: drop_nan t
  | None :: t => drop_nan t
  end.

Fixpoint insert (x : Q) (l : list Q) : list Q :=
  match l with
  | [] => [x]
  | y :: t => if Qle_bool x y then x :: l else y :: insert x t
  end.

Definition sort (l : list Q) : list Q := fold_right insert [] l.

(** NumPy's [_lerp]: [a + (b-a)*t], computed from [b] when [t >= 0.5]. *)
Definition lerp (a b t : Q) : Q :=
  if Qle_bool (1 # 2) t then (b - (b - a) * (1 - t))%Q else (a + (b - a) * t)%Q.

(** The value NumPy interpolates at a virtual index of the sorted array:
    the index is split into its floor and its fractional part, the next
    index is clipped to the last one. *)
Definition interpolate_at (arr : list Q) (virtual_index : Q) : Q :=
  let n := Z.of_nat (List.length arr) in
  let previous := Qfloor virtual_index in
  let next := Z.min (previous + 1) (n - 1) in
  let gamma := (virtual_index - inject_Z previous)%Q in
  lerp (nth (Z.to_nat previous) arr 0%Q) (nth (Z.to_nat next) arr 0%Q) gamma.

(** [np.nanpercentile(a, q)], default (linear) method, for [0 <= q <= 100]:
    NaN entries are removed, the rest is sorted, and the order statistics
    are interpolated at the virtual index [(n-1) * q/100].  NaN when nothing
    is left. *)
Definition np_nanpercentile (a : list float) (q : Q) : float :=
  let arr := sort (drop_nan a) in
  match arr with
  | [] => NaN
  | _ =>
      let n := Z.of_nat (List.length arr) in
      Some (interpolate_at arr (inject_Z (n - 1) * (q / 100))%Q)
  end.

(** [np.nanmedian] of a flattened array: NaN entries are removed; NaN when
    nothing is left; the middle order statistic, or the mean of the two
    middle ones. *)
Definition np_nanmedian (a : list float) : float :=
  let arr := sort (drop_nan a) in
  match arr with
  | [] => NaN
  | _ =>
      let n := List.length arr in
      if Nat.even n
      then Some ((nth (n / 2 - 1) arr 0%Q + nth (n / 2) arr 0%Q) / 2)%Q
      else Some (nth (n / 2) arr 0%Q)
  end.

End Float.
Import Float.

(* ------------------------------------------------------------------ *)
(** ** percent_score (ThresholdScorer) *)

(** What a call of [percent_score] hands back: a 2-tuple, a 3-tuple, or
    Python's [None] when the function body falls off its end. *)
Inductive pyresult : Type :=
  | PyNone
  | Tuple2 (fraction threshold : float)
  | Tuple3 (fraction perc_95 perc_5 : float).

Definition percent_score (null_dist corr_dist : list float) (how : string) : pyresult :=
  if String.eqb how "right" then
    let perc_95 := np_nanpercentile null_dist 95 in
    let above_threshold := map (fun c => fgt c perc_95) corr_dist in
    Tuple2 (np_mean (map astype_float above_threshold)) perc_95
  else if String.eqb how "left" then
    let perc_5 := np_nanpercentile null_dist 5 in
    let below_threshold := map (fun c => flt c perc_5) corr_dist in
    Tuple2 (np_mean (map astype_float below_threshold)) perc_5
  else if String.eqb how "both" then
    let perc_95 := np_nanpercentile null_dist 95 in
    let above_threshold := map (fun c => fgt c perc_95) corr_dist in
    let perc_5 := np_nanpercentile null_dist 5 in
    let below_threshold := map (fun c => flt c perc_5) corr_dist in
    Tuple3 (fadd (np_mean (map astype_float above_threshold))
                 (np_mean (map astype_float below_threshold)))
           perc_95 perc_5
  else PyNone.


(** The spec's wording of the score: how many entries lie strictly beyond
    the threshold, over how many entries there are. *)
Definition fraction_where (beyond : float -> bool) (dist : list float) : float :=
  match dist with
  | [] => NaN
  | _ => Some (inject_Z (Z.of_nat (List.length (filter beyond dist)))
               / inject_Z (Z.of_nat (List.length dist)))%Q
  end.

Definition range_1_100 : list float :=
  map (fun i => Some (inject_Z (Z.of_nat i))) (seq 1 100).


(* ------------------------------------------------------------------ *)
(** ** Exceptions and results *)

Inductive exn : Type :=
  | KeyError | IndexError | TypeError | ValueError | AssertionError.

(** A call returns, raises, or is still looping when the fuel of the model
    runs out. *)
Inductive res (A : Type) : Type :=
  | Ok (a : A)
  | Raise (e : exn)
  | OutOfFuel.
Arguments Ok {A} a.
Arguments Raise {A} e.
Arguments OutOfFuel {A}.

Definition bind {A B : Type} (m : res A) (k : A -> res B) : res B :=
  match m with
  | Ok a => k a
  | Raise e => Raise e
  | OutOfFuel => OutOfFuel
  end.

Notation "x <- m ;; k" := (bind m (fun x => k))
  (at level 61, m at next level, right associativity).

Fixpoint mapM {A B : Type} (f : A -> res B) (l : list A) : res (list B) :=
  match l with
  | [] => Ok []
  | a :: t => b <- f a ;; bs <- mapM f t ;; Ok (b :: bs)
  end.

(* ------------------------------------------------------------------ *)
(** ** Cells *)

Inductive cell : Type :=
  | Str (s : string)
  | Num (x : float).

(** Equality of keys as pandas hashes them: numbers by value, NaN one value. *)
Definition cell_eqb (a b : cell) : bool :=
  match a, b with
  | Str s, Str t => String.eqb s t
  | Num (Some x), Num (Some y) => Qeq_bool x y
  | Num None, Num None => true
  | _, _ => false
  end.

Definition isna (c : cell) : bool :=
  match c with Num None => true | _ => false end.

(** Python's [a != b] on two scalars: NaN differs from everything. *)
Definition py_ne (a b : cell) : bool :=
  match a, b with
  | Num None, _ => true
  | _, Num None => true
  | _, _ => negb (cell_eqb a b)
  end.

(** Order in which pandas sorts group keys: numbers first, then strings. *)
Definition cell_leb (a b : cell) : bool :=
  match a, b with
  | Num (Some x), Num (Some y) => Qle_bool x y
  | Num None, Num _ => true
  | Num (Some _), Num None => false
  | Num _, Str _ => true
  | Str _, Num _ => false
  | Str s, Str t => String.leb s t
  end.

(** [Series.unique()] and the distinct keys of a [groupby]: the values in
    order of first appearance. *)
Section Unique.
Variable K : Type.
Variable eqb : K -> K -> bool.

Fixpoint unique_from (seen : list K) (l : list K) : list K :=
  match l with
  | [] => []
  | x :: t =>
      if existsb (eqb x) seen then unique_from seen t
      else x :: unique_from (x :: seen) t
  end.

Definition unique_by (l : list K) : list K := unique_from [] l.
End Unique.
Arguments unique_from {K} eqb seen l.
Arguments unique_by {K} eqb l.

Definition unique (l : list cell) : list cell := unique_by cell_eqb l.

Section KeySort.
Variable K : Type.
Variable leb : K -> K -> bool.

Fixpoint insert_key (x : K) (l : list K) : list K :=
  match l with
  | [] => [x]
  | y :: t => if leb x y then x :: l else y :: insert_key x t
  end.

Definition sort_keys (l : list K) : list K := fold_right insert_key [] l.
End KeySort.
Arguments insert_key {K} leb x l.
Arguments sort_keys {K} leb l.

(* ------------------------------------------------------------------ *)
(** ** Data frames *)

(** A frame: the column names and the rows, each row with its index label. *)
Record DataFrame : Type := mkDataFrame {
  columns : list string;
  rows : list (Z * list cell)
}.

Definition index (df : DataFrame) : list Z := map fst (rows df).
Definition values (df : DataFrame) : list (list cell) := map snd (rows df).
Definition len (df : DataFrame) : nat := List.length (rows df).

Definition RangeIndex (n : nat) : list Z := map Z.of_nat (seq 0 n).

(** [df.reset_index(drop=True, inplace=True)]: the frame [df] itself gets
    the labels 0, 1, ..., the old labels are dropped. *)
Definition reset_index_drop (df : DataFrame) : DataFrame :=
  {| columns := columns df;
     rows := combine (RangeIndex (len df)) (values df) |}.

Fixpoint get_loc (cols : list string) (c : string) : option nat :=
  match cols with
  | [] => None
  | h :: t => if String.eqb h c then Some O else option_map S (get_loc t c)
  end.

Definition column_loc (cols : list string) (c : string) : res nat :=
  match get_loc cols c with
  | Some p => Ok p
  | None => Raise KeyError
  end.

Definition cell_at (p : nat) (r : list cell) : cell := nth p r (Num NaN).

(** [df[c]]: one column. *)
Definition getitem (df : DataFrame) (c : string) : res (list cell) :=
  p <- column_loc (columns df) c ;;
  Ok (map (cell_at p) (values df)).

(** [df[cols]]: the frame restricted to the listed columns. *)
Definition getitem_list (df : DataFrame) (cols : list string) : res DataFrame :=
  ps <- mapM (column_loc (columns df)) cols ;;
  Ok {| columns := cols;
        rows := map (fun r => (fst r, map (fun p => cell_at p (snd r)) ps)) (rows df) |}.

(** [df.loc[labels]]: for each label the rows carrying it; [KeyError] for a
    label the index lacks. *)
Definition loc_label (df : DataFrame) (l : Z) : res (list (Z * list cell)) :=
  match filter (fun r => Z.eqb (fst r) l) (rows df) with
  | [] => Raise KeyError
  | rs => Ok rs
  end.

Definition loc (df : DataFrame) (labels : list Z) : res DataFrame :=
  rs <- mapM (loc_label df) labels ;;
  Ok {| columns := columns df; rows := List.concat rs |}.

(** [df.groupby(c)]: rows with a NaN key are dropped, the groups come in
    sorted key order, each keeping its rows in their order. *)
Definition groupby (df : DataFrame) (c : string) : res (list (cell * DataFrame)) :=
  p <- column_loc (columns df) c ;;
  let keys := map (cell_at p) (values df) in
  let names := sort_keys cell_leb (unique (filter (fun k => negb (isna k)) keys)) in
  Ok (map (fun name =>
             (name, {| columns := columns df;
                       rows := filter (fun r => cell_eqb (cell_at p (snd r)) name) (rows df) |}))
          names).

(* ------------------------------------------------------------------ *)
(** ** Arrays *)

(** What [np.corrcoef] returns: a 0-d value for a single row, a square
    matrix otherwise. *)
Inductive ndarray : Type :=
  | Scalar (x : float)
  | Matrix (m : list (list float)).

Definition to_float (c : cell) : res float :=
  match c with
  | Num x => Ok x
  | Str _ => Raise TypeError
  end.

Fixpoint set_nth {A : Type} (n : nat) (x : A) (l : list A) : list A :=
  match l, n with
  | [], _ => []
  | _ :: t, O => x :: t
  | h :: t, S n' => h :: set_nth n' x t
  end.

Fixpoint fill_diagonal_from (i : nat) (m : list (list float)) : list (list float) :=
  match m with
  | [] => []
  | r :: t => set_nth i NaN r :: fill_diagonal_from (S i) t
  end.

(** [np.fill_diagonal(a, np.nan)]: refuses an array of fewer than two dimensions. *)
Definition np_fill_diagonal (a : ndarray) : res ndarray :=
  match a with
  | Scalar _ => Raise ValueError
  | Matrix m => Ok (Matrix (fill_diagonal_from 0 m))
  end.

Definition flatten (a : ndarray) : list float :=
  match a with
  | Scalar x => [x]
  | Matrix m => List.concat m
  end.

(** [a[0:k, k:]]. *)
Definition slice_block (k : nat) (a : ndarray) : res ndarray :=
  match a with
  | Scalar _ => Raise IndexError
  | Matrix m => Ok (Matrix (map (skipn k) (firstn k m)))
  end.

(** [population[i]] for a Python list. *)
Definition iloc {A : Type} (l : list A) (i : nat) : res A :=
  match nth_error l i with
  | Some a => Ok a
  | None => Raise IndexError
  end.

(* ------------------------------------------------------------------ *)
(** ** Random choices *)

(** The process-wide random source: [rnd call i] is the raw number behind
    the [i]-th element chosen by the [call]-th call of [random.choices]. *)
Definition random_source : Type := nat -> nat -> nat.

(** [random.choices([_ for _ in range(n)], k=k)]: [k] elements of the
    population, with replacement; an empty population cannot be chosen from;
    a negative [k] gives no element. *)
Definition random_choices (rnd : random_source) (call : nat) (n : nat) (k : Z)
  : res (list nat) :=
  if (0 <? k) && Nat.eqb n 0 then Raise IndexError
  else Ok (map (fun i => Nat.modulo (rnd call i) n) (seq 0 (Z.to_nat k))).

(* ------------------------------------------------------------------ *)
(** ** The four correlators *)

(** A Python dict literal with two entries: a repeated key keeps the
    later value. *)
Definition pydict : Type := list (string * cell).
Definition dict2 (k1 : string) (v1 : cell) (k2 : string) (v2 : cell) : pydict :=
  if String.eqb k1 k2 then [(k2, v2)] else [(k1, v1); (k2, v2)].

(** The frame [get_metadata(df).assign(profiles=...)]: per row, the metadata
    cells and the profile (the row of feature cells). *)
Record ProfileFrame : Type := mkProfileFrame {
  meta_columns : list string;
  profile_rows : list (list cell * list cell)
}.

(** A row of [replicate_grouped]: one (common, perturbation) group and the
    list of its profiles. *)
Record replicate_group : Type := mkReplicateGroup {
  rg_common : cell;
  rg_perturbation : cell;
  rg_profiles : list (list cell)
}.

(** A row of [common_grouped]: one common key and, per perturbation, the
    list of profiles. *)
Record common_group : Type := mkCommonGroup {
  cg_common : cell;
  cg_profiles : list (list (list cell))
}.

Definition pair_eqb (a b : cell * cell) : bool :=
  cell_eqb (fst a) (fst b) && cell_eqb (snd a) (snd b).

Definition pair_leb (a b : cell * cell) : bool :=
  if cell_eqb (fst a) (fst b) then cell_leb (snd a) (snd b)
  else cell_leb (fst a) (fst b).

Section Core.
(** pycytominer's [infer_cp_features(df, metadata=...)]. *)
Variable infer_cp_features : DataFrame -> bool -> res (list string).
(** The Pearson coefficient of two rows, as [np.corrcoef] computes it. *)
Variable pearson : list float -> list float -> float.
Variable rnd : random_source.

Definition get_featuredata (df : DataFrame) : res DataFrame :=
  cols <- infer_cp_features df false ;;
  getitem_list df cols.

Definition get_metadata (df : DataFrame) : res DataFrame :=
  cols <- infer_cp_features df true ;;
  getitem_list df cols.

(** [np.corrcoef(X)], rows as variables: entry (i, j) is the coefficient
    of rows i and j. *)
Definition np_corrcoef (X : list (list cell)) : res ndarray :=
  xs <- mapM (mapM to_float) X ;;
  match xs with
  | [r] => Ok (Scalar (pearson r r))
  | _ => Ok (Matrix (map (fun a => map (fun b => pearson a b) xs) xs))
  end.

(** [np.corrcoef(x, y)]: the rows of [y] are stacked under those of [x]. *)
Definition np_corrcoef2 (x y : list (list cell)) : res ndarray :=
  np_corrcoef (x ++ y).

(** *** corr_between_replicates *)

Fixpoint replicates_loop (group_by_feature : string)
    (replicate_grouped : list (cell * DataFrame))
    (replicate_corr_df : list pydict) : res (list pydict) :=
  match replicate_grouped with
  | [] => Ok replicate_corr_df
  | (name, group) :: rest =>
      group_features <- get_featuredata group ;;
      corr <- np_corrcoef (values group_features) ;;
      replicate_corr <-
        (if Nat.eqb (len group_features) 1 then Ok NaN
         else corr' <- np_fill_diagonal corr ;;
              Ok (np_nanmedian (flatten corr'))) ;;
      replicates_loop group_by_feature rest
        (replicate_corr_df
           ++ [dict2 group_by_feature name "correlation" (Num replicate_corr)])
  end.

(** The frame after the call, and the rows of the returned frame. *)
Definition corr_between_replicates (df : DataFrame) (group_by_feature : string)
  : DataFrame * res (list pydict) :=
  (df,
   replicate_grouped <- groupby df group_by_feature ;;
   replicates_loop group_by_feature replicate_grouped []).

(** *** corr_between_non_replicates *)

Fixpoint non_replicates_loop (fuel call : nat) (df : DataFrame)
    (n_samples n_replicates : Z) (metadata_compound_name : string)
    (null_corr : list float) : res (list float) :=
  if Z.of_nat (List.length null_corr) <? n_samples then
    match fuel with
    | O => OutOfFuel
    | S fuel' =>
        compounds <- random_choices rnd call (len df) n_replicates ;;
        sample <- loc df (map Z.of_nat compounds) ;;
        names <- getitem sample metadata_compound_name ;;
        if Z.of_nat (List.length (unique names)) =? n_replicates then
          sample_features <- get_featuredata sample ;;
          corr <- np_corrcoef (values sample_features) ;;
          corr' <- np_fill_diagonal corr ;;
          non_replicates_loop fuel' (S call) df n_samples n_replicates
            metadata_compound_name (null_corr ++ [np_nanmedian (flatten corr')])
        else
          non_replicates_loop fuel' (S call) df n_samples n_replicates
            metadata_compound_name null_corr
    end
  else Ok null_corr.

Definition corr_between_non_replicates (fuel : nat) (df : DataFrame)
    (n_samples n_replicates : Z) (metadata_compound_name : string)
  : DataFrame * res (list float) :=
  let df := reset_index_drop df in
  (df, non_replicates_loop fuel 0 df n_samples n_replicates metadata_compound_name []).

(** *** The grouped profile tables *)

Definition make_profile_df (df : DataFrame) : res ProfileFrame :=
  meta <- get_metadata df ;;
  cols <- infer_cp_features df false ;;
  feats <- getitem_list df cols ;;
  Ok {| meta_columns := columns meta;
        profile_rows := combine (values meta) (values feats) |}.

(** A grouping key of [profile_df]: the column [profiles] holds arrays,
    which cannot be hashed. *)
Definition key_loc (pdf : ProfileFrame) (c : string) : res nat :=
  if String.eqb c "profiles" then Raise TypeError
  else column_loc (meta_columns pdf) c.

(** [profile_df.groupby([common, perturbation]).profiles.apply(list).reset_index()] *)
Definition group_replicates (pdf : ProfileFrame)
    (metadata_common metadata_perturbation : string) : res (list replicate_group) :=
  pc <- key_loc pdf metadata_common ;;
  pp <- key_loc pdf metadata_perturbation ;;
  if String.eqb metadata_common metadata_perturbation then Raise ValueError
  else
    let key := fun r : list cell * list cell => (cell_at pc (fst r), cell_at pp (fst r)) in
    let kept := filter (fun r => negb (isna (fst (key r))) && negb (isna (snd (key r))))
                       (profile_rows pdf) in
    let names := sort_keys pair_leb (unique_by pair_eqb (map key kept)) in
    Ok (map (fun name =>
               {| rg_common := fst name;
                  rg_perturbation := snd name;
                  rg_profiles :=
                    map snd (filter (fun r => pair_eqb (key r) name) (profile_rows pdf)) |})
            names).

(** [replicate_grouped.groupby([common]).profiles.apply(list).reset_index()] *)
Definition group_common (replicate_grouped : list replicate_group) : list common_group :=
  let keys := filter (fun k => negb (isna k)) (map rg_common replicate_grouped) in
  let names := sort_keys cell_leb (unique keys) in
  map (fun name =>
         {| cg_common := name;
            cg_profiles :=
              map rg_profiles
                  (filter (fun g => cell_eqb (rg_common g) name) replicate_grouped) |})
      names.

(** *** corr_between_perturbation_pairs *)

Fixpoint pairs_loop (common_grouped : list common_group) (replicate_corr : list float)
  : res (list float) :=
  match common_grouped with
  | [] => Ok replicate_corr
  | g :: rest =>
      if Nat.ltb 1 (List.length (cg_profiles g)) then
        let compound1_profiles := nth 0 (cg_profiles g) [] in
        let compound2_profiles := nth 1 (cg_profiles g) [] in
        corr <- np_corrcoef2 compound1_profiles compound2_profiles ;;
        corr <- slice_block (List.length (nth 0 (cg_profiles g) [])) corr ;;
        pairs_loop rest (replicate_corr ++ [np_nanmedian (flatten corr)])
      else pairs_loop rest replicate_corr
  end.

Definition corr_between_perturbation_pairs (df : DataFrame)
    (metadata_common metadata_perturbation : string)
  : DataFrame * res (list float) :=
  (df,
   profile_df <- make_profile_df df ;;
   replicate_grouped <- group_replicates profile_df metadata_common metadata_perturbation ;;
   pairs_loop (group_common replicate_grouped) []).

(** *** corr_between_perturbation_non_pairs *)

Fixpoint non_pairs_loop (fuel call : nat) (replicate_grouped : list replicate_group)
    (n_samples : Z) (null_corr : list float) : res (list float) :=
  if Z.of_nat (List.length null_corr) <? n_samples then
    match fuel with
    | O => OutOfFuel
    | S fuel' =>
        compounds <- random_choices rnd call (List.length replicate_grouped) 2 ;;
        compound1 <- iloc replicate_grouped (nth 0 compounds O) ;;
        compound2 <- iloc replicate_grouped (nth 1 compounds O) ;;
        if py_ne (rg_common compound1) (rg_common compound2) then
          corr <- np_corrcoef2 (rg_profiles compound1) (rg_profiles compound2) ;;
          first <- iloc replicate_grouped 0 ;;
          corr <- slice_block (List.length (rg_profiles first)) corr ;;
          non_pairs_loop fuel' (S call) replicate_grouped n_samples
            (null_corr ++ [np_nanmedian (flatten corr)])
        else
          non_pairs_loop fuel' (S call) replicate_grouped n_samples null_corr
    end
  else Ok null_corr.

Definition corr_between_perturbation_non_pairs (fuel : nat) (df : DataFrame)
    (n_samples : Z) (metadata_common metadata_perturbation : string)
  : DataFrame * res (list float) :=
  let df := reset_index_drop df in
  (df,
   profile_df <- make_profile_df df ;;
   replicate_grouped <- group_replicates profile_df metadata_common metadata_perturbation ;;
   non_pairs_loop fuel 0 replicate_grouped n_samples []).

End Core.

(* ------------------------------------------------------------------ *)
(** ** Concrete instances used by the examples *)

(** A classifier after pycytominer's convention: metadata columns start
    with [Metadata_], feature columns with a compartment name; finding
    none is an assertion failure. *)
Definition cp_prefix_classifier (df : DataFrame) (metadata : bool) : res (list string) :=
  let features :=
    if metadata then filter (String.prefix "Metadata_") (columns df)
    else filter (fun c => String.prefix "Cells" c || String.prefix "Nuclei" c
                          || String.prefix "Cytoplasm" c) (columns df) in
  match features with
  | [] => Raise AssertionError
  | _ => Ok features
  end.

Definition num (z : Z) : cell := Num (Some (inject_Z z)).

(** Two columns of metadata, three features. *)
Definition example_columns : list string :=
  ["Metadata_moa"; "Metadata_broad_sample"; "Cells_a"; "Cells_b"; "Nuclei_c"].

(** Three wells: one of compound [x] (mechanism [A]), two of compound [y]
    (mechanism [B]); the index labels are not 0, 1, 2. *)
Definition example_df : DataFrame :=
  {| columns := example_columns;
     rows := [ (10, [Str "B"; Str "y"; num 1; num 2; num 3]);
               (20, [Str "A"; Str "x"; num 3; num 2; num 1]);
               (30, [Str "B"; Str "y"; num 1; num 2; num 3]) ] |}.

(** A coefficient that is right on rows that are equal (1) and puts -1
    elsewhere; the examples use it on rows that are equal or reversed. *)
Definition toy_pearson (x y : list float) : float :=
  if forallb (fun p => match p with
                       | (Some a, Some b) => Qeq_bool a b
                       | _ => false
                       end) (combine x y)
  then Some 1%Q else Some (-1)%Q.

(** A random source whose every call draws position 1, then position 0s. *)
Definition draw_1_0 : random_source :=
  fun _ i => match i with O => 1%nat | _ => 0%nat end.

(** Four wells: mechanism [A] has the compounds [x] and [z], mechanism [B]
    has the compound [y] alone, in two wells. *)
Definition example_pairs_df : DataFrame :=
  {| columns := example_columns;
     rows := [ (0, [Str "A"; Str "x"; num 1; num 2; num 3]);
               (1, [Str "B"; Str "y"; num 3; num 2; num 1]);
               (2, [Str "A"; Str "z"; num 1; num 2; num 3]);
               (3, [Str "B"; Str "y"; num 3; num 2; num 1]) ] |}.

(** A frame whose grouping column is itself called [correlation]. *)
Definition example_correlation_df : DataFrame :=
  {| columns := ["correlation"; "Cells_a"; "Cells_b"];
     rows := [ (0, [Str "g"; num 1; num 2]);
               (1, [Str "h"; num 2; num 1]);
               (2, [Str "h"; num 1; num 2]) ] |}.

(** Three wells of one mechanism: compound [x] once, compound [z] twice. *)
Definition example_one_mechanism_df : DataFrame :=
  {| columns := example_columns;
     rows := [ (0, [Str "A"; Str "x"; num 1; num 2; num 3]);
               (1, [Str "A"; Str "z"; num 3; num 2; num 1]);
               (2, [Str "A"; Str "z"; num 1; num 2; num 3]) ] |}.

(** Four wells, two per compound: [x] of mechanism [A], [y] of mechanism [B]. *)
Definition example_balanced_df : DataFrame :=
  {| columns := example_columns;
     rows := [ (0, [Str "A"; Str "x"; num 1; num 2; num 3]);
               (1, [Str "B"; Str "y"; num 3; num 2; num 1]);
               (2, [Str "A"; Str "x"; num 1; num 2; num 3]);
               (3, [Str "B"; Str "y"; num 3; num 2; num 1]) ] |}.

(* ------------------------------------------------------------------ *)
(** ** Notions the statements use *)

(** Pairwise different values. *)
Definition all_distinct (l : list cell) : Prop :=
  ForallOrdPairs (fun a b => cell_eqb a b = false) l.

(** The cells in column position [p] of the rows of [df] at the drawn
    positions. *)
Definition drawn_names (df : DataFrame) (p : nat) (compounds : list nat) : list cell :=
  map (fun i => cell_at p (nth i (values df) [])) compounds.

(** A draw of [n_replicates] row positions of [df] whose rows carry
    [n_replicates] different values in column [c]. *)
Definition non_replicate_draw (df : DataFrame) (n_replicates : Z) (c : string)
    (compounds : list nat) : Prop :=
  Z.of_nat (List.length compounds) = n_replicates
  /\ Forall (fun i => (i < len df)%nat) compounds
  /\ exists p, get_loc (columns df) c = Some p
               /\ all_distinct (drawn_names df p compounds).

(** Value of a key in a Python dict. *)
Fixpoint dict_get (d : pydict) (k : string) : option cell :=
  match d with
  | [] => None
  | (k', v) :: t => if String.eqb k' k then Some v else dict_get t k
  end.

Section Notions.
Variable infer_cp_features : DataFrame -> bool -> res (list string).
Variable pearson : list float -> list float -> float.

(** The median replicate correlation of a sample: the median of the
    correlation matrix of its rows, the diagonal set to NaN. *)
Definition median_replicate_corr (sample : DataFrame) : res float :=
  sample_features <- get_featuredata infer_cp_features sample ;;
  corr <- np_corrcoef pearson (values sample_features) ;;
  corr' <- np_fill_diagonal corr ;;
  Ok (np_nanmedian (flatten corr')).

(** The table [replicate_grouped] of a frame. *)
Definition replicate_table (df : DataFrame)
    (metadata_common metadata_perturbation : string) : res (list replicate_group) :=
  profile_df <- make_profile_df infer_cp_features df ;;
  group_replicates profile_df metadata_common metadata_perturbation.

(** The median of the cross-correlation block of two profile lists: the
    slice of their joint correlation matrix whose rows cover the first
    list and whose columns cover the second. *)
Definition cross_block_median (profiles1 profiles2 : list (list cell)) : res float :=
  corr <- np_corrcoef2 pearson profiles1 profiles2 ;;
  block <- slice_block (List.length profiles1) corr ;;
  Ok (np_nanmedian (flatten block)).
End Notions.

Section Provenance.
Variable infer_cp_features : DataFrame -> bool -> res (list string).
Variable pearson : list float -> list float -> float.
Variable rnd : random_source.

(** [v] is the value [corr_between_non_replicates] computes from the
    draw [compounds]: a draw of the random source, of [n_replicates]
    rows carrying as many different values in column [c], and [v] the
    median replicate correlation of these rows. *)
Definition emitted_non_replicate (df : DataFrame) (n_replicates : Z) (c : string)
    (compounds : list nat) (v : float) : Prop :=
  (exists call, random_choices rnd call (len df) n_replicates = Ok compounds)
  /\ non_replicate_draw df n_replicates c compounds
  /\ exists sample,
       loc (reset_index_drop df) (map Z.of_nat compounds) = Ok sample
       /\ values sample = map (fun i => nth i (values df) []) compounds
       /\ median_replicate_corr infer_cp_features pearson sample = Ok v.

(** [v] is a value [corr_between_perturbation_non_pairs] computes from the
    draw of two rows of [replicate_grouped]: a draw of the random source,
    of two groups whose common keys differ, and [v] the median of the
    block of their joint correlation matrix that the profile count of the
    first row of the table cuts out. *)
Definition emitted_non_pair (replicate_grouped : list replicate_group)
    (draw : nat * nat) (v : float) : Prop :=
  (exists call,
      random_choices rnd call (List.length replicate_grouped) 2
      = Ok [fst draw; snd draw])
  /\ exists compound1 compound2,
       nth_error replicate_grouped (fst draw) = Some compound1
       /\ nth_error replicate_grouped (snd draw) = Some compound2
       /\ cell_eqb (rg_common compound1) (rg_common compound2) = false
       /\ exists corr first block,
            np_corrcoef2 pearson (rg_profiles compound1) (rg_profiles compound2) = Ok corr
            /\ nth_error replicate_grouped 0 = Some first
            /\ slice_block (List.length (rg_profiles first)) corr = Ok block
            /\ v = np_nanmedian (flatten block).
End Provenance.

(** The distinct perturbation values found with the common key [k]: those
    of the rows of [profile_df] whose two keys are not NaN and whose common
    key is [k] ([pc] and [pp] are the positions of the two key columns). *)
Definition perturbations_of (pdf : ProfileFrame) (pc pp : nat) (k : cell) : list cell :=
  unique (map (fun r : list cell * list cell => cell_at pp (fst r))
              (filter (fun r => (negb (isna (cell_at pc (fst r)))
                                 && negb (isna (cell_at pp (fst r))))
                                && cell_eqb (cell_at pc (fst r)) k)
                      (profile_rows pdf))).

(** The rows of [profile_df] that enter a group: both keys are there. *)
Definition grouped_rows (pdf : ProfileFrame) (pc pp : nat) : list (list cell * list cell) :=
  filter (fun r => negb (isna (cell_at pc (fst r))) && negb (isna (cell_at pp (fst r))))
         (profile_rows pdf).

(* ------------------------------------------------------------------ *)
(** ** Further notions *)


(** Two results of [percent_score] hold the same values. *)
Definition pyresult_eq (a b : pyresult) : Prop :=
  match a, b with
  | PyNone, PyNone => True
  | Tuple2 f t, Tuple2 f' t' => feq f f' /\ feq t t'
  | Tuple3 f u l, Tuple3 f' u' l' => feq f f' /\ feq u u' /\ feq l l'
  | _, _ => False
  end.

(** No entry of [dist] is a number: [dist] is empty or all NaN. *)
Definition no_number (dist : list float) : Prop := forall x, ~ In (Some x) dist.

Fixpoint remove_nth {A : Type} (n : nat) (l : list A) : list A :=
  match l, n with
  | [], _ => []
  | _ :: t, O => t
  | h :: t, S n' => h :: remove_nth n' t
  end.

(** The entries of a matrix off its diagonal, row by row, the first row
    being row [i]. *)
Fixpoint off_diagonal_from (i : nat) (m : list (list float)) : list float :=
  match m with
  | [] => []
  | r :: t => (remove_nth i r ++ off_diagonal_from (S i) t)%list
  end.

(** The coefficients of every row with every other row. *)
Definition pairwise_coefficients (pearson : list float -> list float -> float)
    (xs : list (list float)) : list float :=
  off_diagonal_from 0 (map (fun a => map (fun b => pearson a b) xs) xs).

(** The coefficients of every row of [xs] with every row of [ys]. *)
Definition cross_coefficients (pearson : list float -> list float -> float)
    (xs ys : list (list float)) : list float :=
  List.concat (map (fun a => map (fun b => pearson a b) ys) xs).

Section ReplicateRows.
Variable infer_cp_features : DataFrame -> bool -> res (list string).
Variable pearson : list float -> list float -> float.


End ReplicateRows.

Section Values.
Variable infer_cp_features : DataFrame -> bool -> res (list string).
Variable pearson : list float -> list float -> float.

(** [v] is the NaN-aware median of the coefficients between different
    rows among the rows of [df] at the positions [compounds]. *)
Definition non_replicate_value (df : DataFrame) (compounds : list nat) (v : float) : Prop :=
  exists sample sample_features xs,
    loc (reset_index_drop df) (map Z.of_nat compounds) = Ok sample
    /\ values sample = map (fun i => nth i (values df) []) compounds
    /\ get_featuredata infer_cp_features sample = Ok sample_features
    /\ mapM (mapM to_float) (values sample_features) = Ok xs
    /\ v = np_nanmedian (pairwise_coefficients pearson xs).

(** [v] is the NaN-aware median of the coefficients of the profiles of the
    first perturbation of [g] with the profiles of its second one. *)
Definition pair_value (g : common_group) (v : float) : Prop :=
  exists xs ys,
    mapM (mapM to_float) (nth 0 (cg_profiles g) []) = Ok xs
    /\ mapM (mapM to_float) (nth 1 (cg_profiles g) []) = Ok ys
    /\ v = np_nanmedian (cross_coefficients pearson xs ys).

(** [v] is the median of the cross-correlation block of the rows [fst draw]
    and [snd draw] of [replicate_grouped]. *)
Definition cross_block_of_draw (replicate_grouped : list replicate_group)
    (draw : nat * nat) (v : float) : Prop :=
  exists compound1 compound2,
    nth_error replicate_grouped (fst draw) = Some compound1
    /\ nth_error replicate_grouped (snd draw) = Some compound2
    /\ cross_block_median pearson (rg_profiles compound1) (rg_profiles compound2) = Ok v.
End Values.

(* ------------------------------------------------------------------ *)
(** ** 2.compare-metrics/cell-health/scripts/nbconverted/1.compare-mpvalue.py *)

(** A value of the column [mp_value_neglog]: here the infinities matter
    ([-log10] of an mp-value 0 is [+inf]). *)
Inductive xfloat : Type :=
  | XNaN
  | NegInf
  | Fin (q : Q)
  | PosInf.

(** [x == np.inf]. *)
Definition is_posinf (x : xfloat) : bool :=
  match x with PosInf => true | _ => false end.

(** [a <= b]: false as soon as one side is NaN. *)
Definition xle (a b : xfloat) : bool :=
  match a, b with
  | XNaN, _ => false
  | _, XNaN => false
  | NegInf, _ => true
  | _, PosInf => true
  | Fin x, Fin y => Qle_bool x y
  | _, _ => false
  end.

(** [Series.max()]: the largest entry that is not NaN; NaN when there is none. *)
Fixpoint series_max (l : list xfloat) : xfloat :=
  match l with
  | [] => XNaN
  | x :: t =>
      let m := series_max t in
      match x, m with
      | XNaN, _ => m
      | _, XNaN => x
      | _, _ => if xle m x then x else m
      end
  end.

(** [col[~mask]]. *)
Definition loc_not_mask (col : list xfloat) (mask : list bool) : list xfloat :=
  map fst (filter (fun p : xfloat * bool => negb (snd p)) (combine col mask)).

(** [col[mask] = v]. *)
Definition loc_mask_assign (col : list xfloat) (mask : list bool) (v : xfloat)
  : list xfloat :=
  map (fun p : xfloat * bool => if snd p then v else fst p) (combine col mask).

(** Cell In[4], after the column [mp_value_neglog] is computed:
    [mask = mp_value_neglog == np.inf], then the masked entries are set to
    the maximum of the others. *)
Definition cap_infinite_neglog (mp_value_neglog : list xfloat) : list xfloat :=
  let mask := map is_posinf mp_value_neglog in
  loc_mask_assign mp_value_neglog mask (series_max (loc_not_mask mp_value_neglog mask)).

Definition newline : string := String (Ascii.ascii_of_nat 10) EmptyString.

(** [col_func(s)]: the f-string ["Permutations:\n{s}\n"]. *)
Definition col_func (s : string) : string :=
  ("Permutations:" ++ newline ++ s ++ newline)%string.


(* ------------------------------------------------------------------ *)
(** ** Facts about floats, sorting and percentiles *)

Lemma feq_refl (a : float) : feq a a.
Proof. destruct a; simpl; [reflexivity | exact I]. Qed.









Lemma lerp_linear (a b t : Q) : (lerp a b t == a + (b - a) * t)%Q.
Proof. unfold lerp. destruct (Qle_bool (1 # 2) t); ring. Qed.

(** The sum of a 0/1 mask is the number of its ones. *)
Lemma fsum_mask (f : float -> bool) (l : list float) :
  exists s, fsum (map astype_float (map f l)) = Some s
            /\ (s == inject_Z (Z.of_nat (List.length (filter f l))))%Q.
Proof.
  induction l as [|x t (s & Hs & Hq)].
  - exists 0%Q. split; reflexivity.
  - change (fsum (map astype_float (map f (x :: t))))
      with (fadd (astype_float (f x)) (fsum (map astype_float (map f t)))).
    rewrite Hs. simpl filter. destruct (f x); cbn [astype_float fadd List.length].
    + exists (1 + s)%Q. split; [reflexivity|].
      rewrite Hq, Nat2Z.inj_succ, <- Z.add_1_l, inject_Z_plus. reflexivity.
    + exists (0 + s)%Q. split; [reflexivity|]. rewrite Hq. ring.
Qed.

(** [np.mean] of a mask is the fraction of entries the mask selects. *)
Lemma np_mean_mask (f : float -> bool) (l : list float) :
  feq (np_mean (map astype_float (map f l))) (fraction_where f l).
Proof.
  destruct l as [|x t]; [exact I|].
  destruct (fsum_mask f (x :: t)) as (s & Hs & Hq).
  unfold np_mean, fraction_where.
  change (map astype_float (map f (x :: t)))
    with (astype_float (f x) :: map astype_float (map f t)) at 1.
  cbv iota. rewrite Hs. simpl feq. rewrite Hq, !length_map. reflexivity.
Qed.












Lemma fraction_where_value (f : float -> bool) (l : list float) :
  l <> [] ->
  exists v, np_mean (map astype_float (map f l)) = Some v
            /\ (v == inject_Z (Z.of_nat (List.length (filter f l)))
                     / inject_Z (Z.of_nat (List.length l)))%Q.
Proof.
  intro Hne. pose proof (np_mean_mask f l) as H.
  destruct l as [|x t]; [contradiction|].
  unfold fraction_where in H.
  destruct (np_mean (map astype_float (map f (x :: t)))) as [v|]; [|contradiction].
  exists v. split; [reflexivity | exact H].
Qed.

(* ------------------------------------------------------------------ *)
(** ** Results *)

Lemma bind_Ok {A B : Type} (m : res A) (k : A -> res B) (b : B) :
  bind m k = Ok b -> exists a, m = Ok a /\ k a = Ok b.
Proof. destruct m; simpl; intro H; try discriminate. eauto. Qed.

(** Peel the binds of a hypothesis [H : (x <- m ;; k) = Ok b]. *)
Ltac bind_inv H :=
  repeat match type of H with
         | bind _ _ = Ok _ =>
             let a := fresh "a" in
             let E := fresh "E" in
             apply bind_Ok in H; destruct H as (a & E & H)
         end.

Lemma mapM_length {A B : Type} (f : A -> res B) (l : list A) (bs : list B) :
  mapM f l = Ok bs -> List.length bs = List.length l.
Proof.
  revert bs. induction l as [|a t IH]; simpl; intros bs H.
  - now inversion H.
  - bind_inv H. inversion H; subst. simpl. f_equal. now apply IH.
Qed.


(* ------------------------------------------------------------------ *)
(** ** Frames *)

Lemma RangeIndex_length (n : nat) : List.length (RangeIndex n) = n.
Proof. unfold RangeIndex. now rewrite length_map, length_seq. Qed.

Lemma combine_map_snd {A B : Type} (l : list A) (l' : list B) :
  List.length l = List.length l' -> map snd (combine l l') = l'.
Proof.
  revert l'. induction l as [|a t IH]; intros [|b t'] H; simpl in *;
    try discriminate; [reflexivity|]. f_equal. apply IH. congruence.
Qed.

Lemma combine_map_fst {A B : Type} (l : list A) (l' : list B) :
  List.length l = List.length l' -> map fst (combine l l') = l.
Proof.
  revert l'. induction l as [|a t IH]; intros [|b t'] H; simpl in *;
    try discriminate; [reflexivity|]. f_equal. apply IH. congruence.
Qed.

Lemma values_length (df : DataFrame) : List.length (values df) = len df.
Proof. unfold values, len. apply length_map. Qed.

(** [reset_index] keeps the columns and the cells and installs 0, 1, ... *)
Lemma reset_index_drop_spec (df : DataFrame) :
  columns (reset_index_drop df) = columns df
  /\ values (reset_index_drop df) = values df
  /\ index (reset_index_drop df) = RangeIndex (len df).
Proof.
  unfold reset_index_drop, values, index; simpl. split; [reflexivity|].
  split.
  - apply combine_map_snd. now rewrite RangeIndex_length, length_map.
  - apply combine_map_fst. now rewrite RangeIndex_length, length_map.
Qed.

Lemma reset_index_drop_len (df : DataFrame) : len (reset_index_drop df) = len df.
Proof.
  rewrite <- !values_length.
  now destruct (reset_index_drop_spec df) as (_ & -> & _).
Qed.

(* ------------------------------------------------------------------ *)
(** ** The rejection-sampling loops *)

Section Loops.
Variable infer_cp_features : DataFrame -> bool -> res (list string).
Variable pearson : list float -> list float -> float.
Variable rnd : random_source.

Local Abbreviation non_replicates_loop := (non_replicates_loop infer_cp_features pearson rnd).
Local Abbreviation non_pairs_loop := (non_pairs_loop pearson rnd).

(** One turn of the [while] loop of [corr_between_non_replicates]. *)
Lemma non_replicates_loop_unfold fuel call df n_samples n_replicates c null_corr :
  non_replicates_loop fuel call df n_samples n_replicates c null_corr =
  if Z.of_nat (List.length null_corr) <? n_samples then
    match fuel with
    | O => OutOfFuel
    | S fuel' =>
        compounds <- random_choices rnd call (len df) n_replicates ;;
        sample <- loc df (map Z.of_nat compounds) ;;
        names <- getitem sample c ;;
        if Z.of_nat (List.length (unique names)) =? n_replicates then
          sample_features <- get_featuredata infer_cp_features sample ;;
          corr <- np_corrcoef pearson (values sample_features) ;;
          corr' <- np_fill_diagonal corr ;;
          non_replicates_loop fuel' (S call) df n_samples n_replicates c
            (null_corr ++ [np_nanmedian (flatten corr')])
        else non_replicates_loop fuel' (S call) df n_samples n_replicates c null_corr
    end
  else Ok null_corr.
Proof. destruct fuel; reflexivity. Qed.

(** One turn of the [while] loop of [corr_between_perturbation_non_pairs]. *)
Lemma non_pairs_loop_unfold fuel call replicate_grouped n_samples null_corr :
  non_pairs_loop fuel call replicate_grouped n_samples null_corr =
  if Z.of_nat (List.length null_corr) <? n_samples then
    match fuel with
    | O => OutOfFuel
    | S fuel' =>
        compounds <- random_choices rnd call (List.length replicate_grouped) 2 ;;
        compound1 <- iloc replicate_grouped (nth 0 compounds O) ;;
        compound2 <- iloc replicate_grouped (nth 1 compounds O) ;;
        if py_ne (rg_common compound1) (rg_common compound2) then
          corr <- np_corrcoef2 pearson (rg_profiles compound1) (rg_profiles compound2) ;;
          first <- iloc replicate_grouped 0 ;;
          corr <- slice_block (List.length (rg_profiles first)) corr ;;
          non_pairs_loop fuel' (S call) replicate_grouped n_samples
            (null_corr ++ [np_nanmedian (flatten corr)])
        else non_pairs_loop fuel' (S call) replicate_grouped n_samples null_corr
    end
  else Ok null_corr.
Proof. destruct fuel; reflexivity. Qed.

(** The loops stop as soon as, and only when, [n_samples] values are there. *)
Lemma non_replicates_loop_length fuel :
  forall call df n_samples n_replicates c null_corr l,
    Z.of_nat (List.length null_corr) <= n_samples ->
    non_replicates_loop fuel call df n_samples n_replicates c null_corr = Ok l ->
    Z.of_nat (List.length l) = n_samples.
Proof.
  induction fuel as [|fuel IH]; intros call df n_samples n_replicates c null_corr l Hle H;
    rewrite non_replicates_loop_unfold in H;
    destruct (Z.ltb_spec (Z.of_nat (List.length null_corr)) n_samples) as [Hlt|Hge];
    try discriminate; try (inversion H; subst; lia).
  bind_inv H.
  destruct (Z.of_nat (List.length (unique a1)) =? n_replicates).
  - bind_inv H. eapply IH; [|exact H]. rewrite length_app. simpl. lia.
  - eapply IH; [|exact H]. lia.
Qed.

Lemma non_pairs_loop_length fuel :
  forall call replicate_grouped n_samples null_corr l,
    Z.of_nat (List.length null_corr) <= n_samples ->
    non_pairs_loop fuel call replicate_grouped n_samples null_corr = Ok l ->
    Z.of_nat (List.length l) = n_samples.
Proof.
  induction fuel as [|fuel IH]; intros call replicate_grouped n_samples null_corr l Hle H;
    rewrite non_pairs_loop_unfold in H;
    destruct (Z.ltb_spec (Z.of_nat (List.length null_corr)) n_samples) as [Hlt|Hge];
    try discriminate; try (inversion H; subst; lia).
  bind_inv H.
  destruct (py_ne (rg_common a0) (rg_common a1)).
  - bind_inv H. eapply IH; [|exact H]. rewrite length_app. simpl. lia.
  - eapply IH; [|exact H]. lia.
Qed.

(** More fuel does not change what a loop returns. *)
Lemma non_replicates_loop_fuel_mono fuel :
  forall fuel' call df n_samples n_replicates c null_corr l,
    (fuel <= fuel')%nat ->
    non_replicates_loop fuel call df n_samples n_replicates c null_corr = Ok l ->
    non_replicates_loop fuel' call df n_samples n_replicates c null_corr = Ok l.
Proof.
  induction fuel as [|fuel IH];
    intros fuel' call df n_samples n_replicates c null_corr l Hle H;
    rewrite non_replicates_loop_unfold in H |- *;
    destruct (Z.of_nat (List.length null_corr) <? n_samples);
    try discriminate; try assumption.
  destruct fuel' as [|fuel']; [lia|].
  bind_inv H. rewrite E. simpl. rewrite E0. simpl. rewrite E1. simpl.
  destruct (Z.of_nat (List.length (unique a1)) =? n_replicates).
  - bind_inv H. rewrite E2. simpl. rewrite E3. simpl. rewrite E4. simpl.
    apply IH; [lia | assumption].
  - apply IH; [lia | assumption].
Qed.

Lemma non_pairs_loop_fuel_mono fuel :
  forall fuel' call replicate_grouped n_samples null_corr l,
    (fuel <= fuel')%nat ->
    non_pairs_loop fuel call replicate_grouped n_samples null_corr = Ok l ->
    non_pairs_loop fuel' call replicate_grouped n_samples null_corr = Ok l.
Proof.
  induction fuel as [|fuel IH];
    intros fuel' call replicate_grouped n_samples null_corr l Hle H;
    rewrite non_pairs_loop_unfold in H |- *;
    destruct (Z.of_nat (List.length null_corr) <? n_samples);
    try discriminate; try assumption.
  destruct fuel' as [|fuel']; [lia|].
  bind_inv H. rewrite E. simpl. rewrite E0. simpl. rewrite E1. simpl.
  destruct (py_ne (rg_common a0) (rg_common a1)).
  - bind_inv H. rewrite E2. simpl. rewrite E3. simpl. rewrite E4. simpl.
    apply IH; [lia | assumption].
  - apply IH; [lia | assumption].
Qed.

End Loops.

(* ------------------------------------------------------------------ *)
(** ** Keys *)

Lemma cell_eqb_refl (a : cell) : cell_eqb a a = true.
Proof.
  destruct a as [s|[x|]]; simpl; [apply String.eqb_refl | apply Qeq_bool_refl | reflexivity].
Qed.

Lemma cell_eqb_sym (a b : cell) : cell_eqb a b = cell_eqb b a.
Proof.
  destruct a as [s|[x|]], b as [t|[y|]]; simpl; try reflexivity.
  - apply String.eqb_sym.
  - apply Qeq_bool_comm.
Qed.

Lemma cell_eqb_trans (a b c : cell) :
  cell_eqb a b = true -> cell_eqb b c = true -> cell_eqb a c = true.
Proof.
  destruct a as [s|[x|]], b as [t|[y|]], c as [u|[z|]]; simpl; try discriminate; auto.
  - rewrite !String.eqb_eq. congruence.
  - apply Qeq_bool_trans.
Qed.

(** On keys that are not NaN, Python's [!=] is the negation of key equality. *)
Lemma py_ne_notna (a b : cell) :
  isna a = false -> isna b = false -> py_ne a b = negb (cell_eqb a b).
Proof. destruct a as [s|[x|]], b as [t|[y|]]; simpl; intros; congruence. Qed.

Section UniqueFacts.
Variable K : Type.
Variable eqb : K -> K -> bool.
Hypothesis eqb_sym : forall a b, eqb a b = eqb b a.

Lemma unique_from_length_le (l : list K) :
  forall seen, (List.length (unique_from eqb seen l) <= List.length l)%nat.
Proof.
  induction l as [|x t IH]; intro seen; simpl; [lia|].
  destruct (existsb (eqb x) seen); simpl.
  - specialize (IH seen). lia.
  - specialize (IH (x :: seen)). lia.
Qed.

(** When [unique] drops nothing, the values are pairwise different. *)
Lemma unique_from_full (l : list K) :
  forall seen,
    List.length (unique_from eqb seen l) = List.length l ->
    ForallOrdPairs (fun a b => eqb a b = false) l
    /\ Forall (fun x => existsb (eqb x) seen = false) l.
Proof.
  induction l as [|x t IH]; intros seen H; simpl in H.
  - split; constructor.
  - destruct (existsb (eqb x) seen) eqn:E.
    + pose proof (unique_from_length_le t seen). lia.
    + simpl in H. injection H as H. destruct (IH _ H) as [Hp Hs].
      split.
      * constructor; [|assumption].
        rewrite Forall_forall in *. intros y Hy.
        specialize (Hs y Hy). simpl in Hs. apply orb_false_elim in Hs.
        rewrite eqb_sym. tauto.
      * constructor; [assumption|].
        rewrite Forall_forall in *. intros y Hy.
        specialize (Hs y Hy). simpl in Hs. apply orb_false_elim in Hs. tauto.
Qed.

Lemma unique_from_In (l : list K) :
  forall seen x, In x (unique_from eqb seen l) -> In x l.
Proof.
  induction l as [|y t IH]; intros seen x H; simpl in *; [assumption|].
  destruct (existsb (eqb y) seen).
  - right. eapply IH; eauto.
  - destruct H as [H|H]; [now left | right; eapply IH; eauto].
Qed.
End UniqueFacts.

Lemma sort_keys_In {K : Type} (leb : K -> K -> bool) (l : list K) (x : K) :
  In x (sort_keys leb l) <-> In x l.
Proof.
  assert (Hins : forall y s, In x (insert_key leb y s) <-> x = y \/ In x s).
  { intros y s. induction s as [|z t IH]; simpl.
    - intuition.
    - destruct (leb y z); simpl; intuition. }
  induction l as [|y t IH]; simpl; [tauto|].
  rewrite Hins, IH. intuition.
Qed.

(** A full [unique] of [n] names: the names are pairwise different. *)
Lemma unique_full_all_distinct (names : list cell) :
  List.length (unique names) = List.length names -> all_distinct names.
Proof.
  intro H. exact (proj1 (unique_from_full cell cell_eqb cell_eqb_sym names [] H)).
Qed.

(* ------------------------------------------------------------------ *)
(** ** Row lookups after [reset_index] *)

Lemma filter_label_range (i : nat) (vals : list (list cell)) :
  forall start,
    filter (fun r : Z * list cell => Z.eqb (fst r) (Z.of_nat i))
           (combine (map Z.of_nat (seq start (List.length vals))) vals)
    = match nth_error vals (i - start) with
      | Some r => if (start <=? i)%nat then [(Z.of_nat i, r)] else []
      | None => []
      end.
Proof.
  induction vals as [|v t IH]; intro start; simpl.
  - now destruct (i - start)%nat.
  - rewrite IH. clear IH.
    destruct (Nat.leb_spec (S start) i) as [Hlt|Hge].
    + destruct (Z.eqb_spec (Z.of_nat start) (Z.of_nat i)) as [E|E]; [lia|].
      replace (i - start)%nat with (S (i - S start)) by lia. cbn [nth_error].
      destruct (Nat.leb_spec start i); [reflexivity | lia].
    + assert (Hnil : match nth_error t (i - S start) with
                     | Some _ => @nil (Z * list cell)
                     | None => []
                     end = []) by (destruct (nth_error t (i - S start)); reflexivity).
      rewrite Hnil.
      replace (i - start)%nat with O by lia. cbn [nth_error].
      destruct (Z.eqb_spec (Z.of_nat start) (Z.of_nat i)) as [E|E];
        destruct (Nat.leb_spec start i); try lia; try reflexivity.
      apply Nat2Z.inj in E. subst. reflexivity.
Qed.

(** After [reset_index] the label [i] is the position [i]. *)
Lemma loc_label_reset (df : DataFrame) (i : nat) :
  loc_label (reset_index_drop df) (Z.of_nat i)
  = match nth_error (values df) i with
    | Some r => Ok [(Z.of_nat i, r)]
    | None => Raise KeyError
    end.
Proof.
  unfold loc_label, reset_index_drop, RangeIndex. simpl rows.
  rewrite <- values_length, filter_label_range, Nat.sub_0_r.
  destruct (nth_error (values df) i); reflexivity.
Qed.

Lemma loc_reset (df : DataFrame) (compounds : list nat) (sample : DataFrame) :
  loc (reset_index_drop df) (map Z.of_nat compounds) = Ok sample ->
  columns sample = columns df
  /\ values sample = map (fun i => nth i (values df) []) compounds
  /\ Forall (fun i => (i < len df)%nat) compounds.
Proof.
  unfold loc. intro H. bind_inv H. inversion H; subst; clear H. simpl columns.
  split; [reflexivity|]. unfold values at 1. simpl rows.
  revert a E. induction compounds as [|i t IH]; simpl; intros a E.
  - inversion E; subst. simpl. split; [reflexivity | constructor].
  - bind_inv E. inversion E; subst; clear E.
    rewrite loc_label_reset in E0.
    destruct (nth_error (values df) i) as [r|] eqn:En; [|discriminate].
    inversion E0; subst; clear E0.
    destruct (IH _ E1) as [Hv Hf]. simpl. rewrite Hv.
    split.
    + f_equal. symmetry. now apply nth_error_nth.
    + constructor; [|assumption].
      rewrite <- values_length. apply nth_error_Some. congruence.
Qed.

(* ------------------------------------------------------------------ *)
(** ** What the null samplers accept *)

Lemma getitem_Ok (df : DataFrame) (c : string) (names : list cell) :
  getitem df c = Ok names ->
  exists p, get_loc (columns df) c = Some p /\ names = map (cell_at p) (values df).
Proof.
  unfold getitem, column_loc. intro H. bind_inv H.
  destruct (get_loc (columns df) c) as [p|]; [|discriminate].
  inversion E; subst. inversion H; subst. eauto.
Qed.

Lemma random_choices_length (rnd : random_source) call n k compounds :
  random_choices rnd call n k = Ok compounds ->
  List.length compounds = Z.to_nat k.
Proof.
  unfold random_choices. destruct ((0 <? k) && Nat.eqb n 0); [discriminate|].
  intro H. inversion H. now rewrite length_map, length_seq.
Qed.

Lemma random_choices_two (rnd : random_source) call n compounds :
  random_choices rnd call n 2 = Ok compounds ->
  compounds = [nth 0 compounds O; nth 1 compounds O].
Proof.
  unfold random_choices. destruct ((0 <? 2) && Nat.eqb n 0); [discriminate|].
  intro H. inversion H. reflexivity.
Qed.

Lemma iloc_Ok {A : Type} (l : list A) (i : nat) (a : A) :
  iloc l i = Ok a -> nth_error l i = Some a.
Proof. unfold iloc. destruct (nth_error l i); intro H; inversion H; reflexivity. Qed.

Section Acceptance.
Variable infer_cp_features : DataFrame -> bool -> res (list string).
Variable pearson : list float -> list float -> float.
Variable rnd : random_source.

Local Abbreviation non_replicates_loop := (non_replicates_loop infer_cp_features pearson rnd).
Local Abbreviation non_pairs_loop := (non_pairs_loop pearson rnd).

(** Every value the loop of [corr_between_non_replicates] appends comes
    from an accepted draw. *)
Lemma non_replicates_loop_emitted (df : DataFrame) n_samples n_replicates c fuel :
  forall call null_corr l,
    non_replicates_loop fuel call (reset_index_drop df) n_samples n_replicates c null_corr
    = Ok l ->
    exists draws new,
      l = (null_corr ++ new)%list
      /\ Forall2 (emitted_non_replicate infer_cp_features pearson rnd df n_replicates c)
                 draws new.
Proof.
  induction fuel as [|fuel IH]; intros call null_corr l H;
    rewrite non_replicates_loop_unfold in H;
    destruct (Z.of_nat (List.length null_corr) <? n_samples);
    try discriminate;
    try (inversion H; subst; exists [], []; rewrite app_nil_r; split; [reflexivity | constructor]).
  bind_inv H. rename a into compounds, a0 into sample, a1 into names.
  destruct (Z.eqb_spec (Z.of_nat (List.length (unique names))) n_replicates) as [Hacc|_].
  - bind_inv H. rename a into sample_features, a0 into corr, a1 into corr'.
    destruct (IH _ _ _ H) as (draws & new & -> & Hall).
    exists (compounds :: draws), (np_nanmedian (flatten corr') :: new).
    split; [now rewrite <- app_assoc|].
    constructor; [|assumption].
    rewrite reset_index_drop_len in E.
    destruct (loc_reset _ _ _ E0) as (Hcols & Hvals & Hrange).
    destruct (getitem_Ok _ _ _ E1) as (p & Hp & Hnames).
    rewrite Hcols in Hp.
    assert (Hlen : List.length names = List.length compounds).
    { rewrite Hnames, Hvals, !length_map. reflexivity. }
    pose proof (random_choices_length _ _ _ _ _ E) as Hk.
    pose proof (unique_from_length_le cell cell_eqb names []) as Hle.
    fold (unique_by cell_eqb names) in Hle. fold (unique names) in Hle.
    split; [eauto|]. split.
    + split; [lia|]. split; [assumption|].
      exists p. split; [assumption|].
      unfold drawn_names. rewrite <- (map_map (fun i => nth i (values df) []) (cell_at p)).
      rewrite <- Hvals, <- Hnames.
      apply unique_full_all_distinct. lia.
    + exists sample. split; [assumption|]. split; [assumption|].
      unfold median_replicate_corr. rewrite E2. simpl. rewrite E3. simpl.
      rewrite E4. reflexivity.
  - eauto.
Qed.

(** Every value the loop of [corr_between_perturbation_non_pairs] appends
    comes from an accepted draw, provided no common key of the table is NaN. *)
Lemma non_pairs_loop_emitted (replicate_grouped : list replicate_group) n_samples fuel :
  Forall (fun g => isna (rg_common g) = false) replicate_grouped ->
  forall call null_corr l,
    non_pairs_loop fuel call replicate_grouped n_samples null_corr = Ok l ->
    exists draws new,
      l = (null_corr ++ new)%list
      /\ Forall2 (emitted_non_pair pearson rnd replicate_grouped) draws new.
Proof.
  intro Hna.
  induction fuel as [|fuel IH]; intros call null_corr l H;
    rewrite non_pairs_loop_unfold in H;
    destruct (Z.of_nat (List.length null_corr) <? n_samples);
    try discriminate;
    try (inversion H; subst; exists [], []; rewrite app_nil_r; split; [reflexivity | constructor]).
  bind_inv H. rename a into compounds, a0 into compound1, a1 into compound2.
  destruct (py_ne (rg_common compound1) (rg_common compound2)) eqn:Hne.
  - bind_inv H. rename a into corr, a0 into first, a1 into block.
    destruct (IH _ _ _ H) as (draws & new & -> & Hall).
    exists ((nth 0 compounds O, nth 1 compounds O) :: draws),
           (np_nanmedian (flatten block) :: new).
    split; [now rewrite <- app_assoc|].
    constructor; [|assumption].
    apply iloc_Ok in E0, E1, E3.
    rewrite Forall_forall in Hna.
    rewrite py_ne_notna in Hne
      by (apply Hna; eapply nth_error_In; eauto).
    apply negb_true_iff in Hne.
    split.
    + exists call. simpl fst. simpl snd.
      now rewrite <- (random_choices_two _ _ _ _ E).
    + exists compound1, compound2. simpl fst. simpl snd.
      repeat (split; [assumption|]).
      exists corr, first, block. auto.
  - eauto.
Qed.

End Acceptance.

(* ------------------------------------------------------------------ *)
(** ** Groups *)

Lemma unique_from_covers {K : Type} (eqb : K -> K -> bool) (l : list K) :
  (forall a, eqb a a = true) ->
  forall seen x,
    In x l ->
    existsb (eqb x) seen = true
    \/ exists y, In y (unique_from eqb seen l) /\ eqb x y = true.
Proof.
  intro Hrefl. induction l as [|h t IH]; intros seen x Hx; simpl in *; [contradiction|].
  destruct (existsb (eqb h) seen) eqn:E.
  - destruct Hx as [->|Hx]; [now left | now apply IH].
  - destruct Hx as [->|Hx].
    + right. exists x. split; [now left | apply Hrefl].
    + destruct (IH (h :: seen) x Hx) as [Hs|(y & Hy & Hxy)].
      * simpl in Hs. apply orb_true_iff in Hs. destruct Hs as [Hs|Hs]; [|now left].
        right. exists h. split; [now left | assumption].
      * right. exists y. split; [now right | assumption].
Qed.

Lemma Forall2_In_l {A B : Type} (R : A -> B -> Prop) (l : list A) (l' : list B) (a : A) :
  Forall2 R l l' -> In a l -> exists b, In b l' /\ R a b.
Proof.
  induction 1 as [|x y l l' Hxy _ IH]; intro Hin; [contradiction|].
  destruct Hin as [->|Hin].
  - exists y. split; [now left | assumption].
  - destruct (IH Hin) as (b & Hb & Hab). exists b. split; [now right | assumption].
Qed.

(** [df[cols]] keeps the rows. *)
Lemma getitem_list_len (df : DataFrame) (cols : list string) (df' : DataFrame) :
  getitem_list df cols = Ok df' -> len df' = len df.
Proof.
  unfold getitem_list. intro H. bind_inv H. inversion H; subst.
  unfold len. simpl. apply length_map.
Qed.

(** The groups of [df.groupby(c)]: a row that is alone with its key, the
    key not NaN, makes a group of its own under that key. *)
Lemma groupby_single_row (df : DataFrame) (c : string) (p : nat)
    (groups : list (cell * DataFrame)) (r : Z * list cell) :
  groupby df c = Ok groups ->
  get_loc (columns df) c = Some p ->
  isna (cell_at p (snd r)) = false ->
  filter (fun r' => cell_eqb (cell_at p (snd r')) (cell_at p (snd r))) (rows df) = [r] ->
  exists group, In (cell_at p (snd r), group) groups /\ len group = 1%nat.
Proof.
  unfold groupby, column_loc. intros H Hp Hna Hone. rewrite Hp in H. simpl in H.
  inversion H; subst; clear H.
  set (k0 := cell_at p (snd r)) in *.
  assert (Hr : In r (filter (fun r' => cell_eqb (cell_at p (snd r')) k0) (rows df)))
    by (rewrite Hone; now left).
  apply filter_In in Hr. destruct Hr as [Hr _].
  assert (Hk : In k0 (filter (fun k => negb (isna k)) (map (cell_at p) (values df)))).
  { apply filter_In. split; [|now rewrite Hna].
    unfold values. rewrite map_map. apply in_map_iff. exists r. auto. }
  destruct (unique_from_covers cell_eqb _ cell_eqb_refl [] k0 Hk) as [Hs|(y & Hy & Hky)];
    [discriminate|].
  assert (Hyk : y = k0).
  { apply unique_from_In in Hy. apply filter_In in Hy. destruct Hy as [Hy _].
    unfold values in Hy. rewrite map_map in Hy. apply in_map_iff in Hy.
    destruct Hy as (r' & <- & Hr').
    assert (Hin : In r' [r]).
    { rewrite <- Hone. apply filter_In. split; [assumption|].
      now rewrite cell_eqb_sym. }
    destruct Hin as [<-|[]]. reflexivity. }
  subst y.
  eexists. split.
  - apply in_map_iff. exists k0. split; [reflexivity|].
    apply sort_keys_In. exact Hy.
  - unfold len. simpl. fold k0. now rewrite Hone.
Qed.

(** A replicate table has no NaN common key. *)
Lemma group_replicates_notna (pdf : ProfileFrame) (c p : string)
    (replicate_grouped : list replicate_group) :
  group_replicates pdf c p = Ok replicate_grouped ->
  Forall (fun g => isna (rg_common g) = false) replicate_grouped.
Proof.
  unfold group_replicates. intro H. bind_inv H.
  destruct (String.eqb c p); [discriminate|].
  inversion H; subst; clear H.
  rewrite Forall_forall. intros g Hg.
  apply in_map_iff in Hg. destruct Hg as (name & <- & Hname). simpl.
  apply sort_keys_In, unique_from_In, in_map_iff in Hname.
  destruct Hname as (r & <- & Hr).
  apply filter_In in Hr. destruct Hr as [_ Hr].
  apply andb_true_iff in Hr. destruct Hr as [Hr _].
  now apply negb_true_iff in Hr.
Qed.

Section Replicates.
Variable infer_cp_features : DataFrame -> bool -> res (list string).
Variable pearson : list float -> list float -> float.

(** The loop of [corr_between_replicates] appends one row per group, in
    order, with NaN as the correlation of a group of one row. *)
Lemma replicates_loop_rows (key : string) (groups : list (cell * DataFrame)) :
  forall replicate_corr_df result,
    replicates_loop infer_cp_features pearson key groups replicate_corr_df = Ok result ->
    exists new,
      result = (replicate_corr_df ++ new)%list
      /\ Forall2 (fun (g : cell * DataFrame) (d : pydict) =>
                    exists replicate_corr,
                      d = dict2 key (fst g) "correlation" (Num replicate_corr)
                      /\ (len (snd g) = 1%nat -> replicate_corr = NaN))
                 groups new.
Proof.
  induction groups as [|[name group] rest IH]; intros acc result H; simpl in H.
  - inversion H; subst. exists []. rewrite app_nil_r. split; [reflexivity | constructor].
  - bind_inv H. rename a into group_features, a0 into corr, a1 into replicate_corr.
    destruct (IH _ _ H) as (new & -> & Hall).
    exists (dict2 key name "correlation" (Num replicate_corr) :: new).
    split; [now rewrite <- app_assoc|].
    constructor; [|assumption].
    exists replicate_corr. split; [reflexivity|]. simpl. intro Hone.
    unfold get_featuredata in E. bind_inv E.
    apply getitem_list_len in E. rewrite E, Hone in E1. simpl in E1.
    now inversion E1.
Qed.

End Replicates.

(* ------------------------------------------------------------------ *)
(** ** Counting the perturbations of a common key *)

Lemma filter_map_comm {A B : Type} (f : A -> B) (P : B -> bool) (l : list A) :
  filter P (map f l) = map f (filter (fun a => P (f a)) l).
Proof.
  induction l as [|a t IH]; simpl; [reflexivity|].
  destruct (P (f a)); simpl; now rewrite IH.
Qed.

Lemma filter_andb {A : Type} (P Q : A -> bool) (l : list A) :
  filter Q (filter P l) = filter (fun a => P a && Q a) l.
Proof.
  induction l as [|a t IH]; simpl; [reflexivity|].
  destruct (P a); simpl; [destruct (Q a); simpl; now rewrite IH | assumption].
Qed.

Lemma insert_key_filter_length {K : Type} (leb : K -> K -> bool) (P : K -> bool) x l :
  List.length (filter P (insert_key leb x l)) = List.length (filter P (x :: l)).
Proof.
  induction l as [|y t IH]; [reflexivity|].
  simpl insert_key. destruct (leb x y); [reflexivity|].
  simpl in *. destruct (P y), (P x); simpl in *; lia.
Qed.

(** Sorting the keys does not change how many of them satisfy a test. *)
Lemma sort_keys_filter_length {K : Type} (leb : K -> K -> bool) (P : K -> bool) l :
  List.length (filter P (sort_keys leb l)) = List.length (filter P l).
Proof.
  induction l as [|x t IH]; [reflexivity|].
  simpl sort_keys. rewrite insert_key_filter_length. simpl.
  destruct (P x); simpl; now rewrite IH.
Qed.

Lemma pair_eqb_same_common (k a a' b b' : cell) :
  cell_eqb a k = true -> cell_eqb a' k = true ->
  pair_eqb (a, b) (a', b') = cell_eqb b b'.
Proof.
  intros Ha Ha'. unfold pair_eqb. simpl.
  rewrite (cell_eqb_trans a k a' Ha) by now rewrite cell_eqb_sym.
  reflexivity.
Qed.

Lemma existsb_pair_second (k a b : cell) (seen : list (cell * cell)) :
  cell_eqb a k = true ->
  existsb (pair_eqb (a, b)) seen
  = existsb (cell_eqb b) (map snd (filter (fun nm => cell_eqb (fst nm) k) seen)).
Proof.
  intro Ha. induction seen as [|[a' b'] t IH]; simpl; [reflexivity|].
  destruct (cell_eqb a' k) eqn:Ea'; simpl.
  - now rewrite (pair_eqb_same_common k a a' b b' Ha Ea'), IH.
  - rewrite <- IH. unfold pair_eqb at 1. simpl.
    destruct (cell_eqb a a') eqn:Eaa; [|reflexivity].
    exfalso. rewrite cell_eqb_sym in Eaa.
    rewrite (cell_eqb_trans a' a k Eaa Ha) in Ea'. discriminate.
Qed.

(** Among the distinct (common, perturbation) pairs, those with common key
    [k] are as many as the distinct perturbations seen with [k]. *)
Lemma unique_pairs_per_common (k : cell) (pairs : list (cell * cell)) :
  forall seen,
    List.length (filter (fun nm => cell_eqb (fst nm) k) (unique_from pair_eqb seen pairs))
    = List.length
        (unique_from cell_eqb
           (map snd (filter (fun nm => cell_eqb (fst nm) k) seen))
           (map snd (filter (fun nm => cell_eqb (fst nm) k) pairs))).
Proof.
  induction pairs as [|[a b] t IH]; intro seen; [reflexivity|].
  cbn [unique_from filter fst].
  destruct (cell_eqb a k) eqn:Ea.
  - cbn [map snd unique_from].
    rewrite <- (existsb_pair_second k a b seen Ea).
    destruct (existsb (pair_eqb (a, b)) seen).
    + apply IH.
    + cbn [filter fst]. rewrite Ea. cbn [List.length]. f_equal.
      rewrite (IH ((a, b) :: seen)). cbn [filter fst]. rewrite Ea. reflexivity.
  - destruct (existsb (pair_eqb (a, b)) seen).
    + apply IH.
    + cbn [filter fst]. rewrite Ea.
      rewrite (IH ((a, b) :: seen)). cbn [filter fst]. rewrite Ea. reflexivity.
Qed.

Section Pairs.
Variable pearson : list float -> list float -> float.

(** The loop of [corr_between_perturbation_pairs] appends one value for
    each row of [common_grouped] with more than one perturbation, and
    nothing for the others. *)
Lemma pairs_loop_length (common_grouped : list common_group) :
  forall replicate_corr l,
    pairs_loop pearson common_grouped replicate_corr = Ok l ->
    List.length l
    = (List.length replicate_corr
       + List.length (filter (fun g => Nat.leb 2 (List.length (cg_profiles g)))
                             common_grouped))%nat.
Proof.
  induction common_grouped as [|g rest IH]; intros acc l H; simpl in H.
  - inversion H; subst. simpl. lia.
  - cbn [filter]. unfold Nat.ltb in H.
    destruct (Nat.leb 2 (List.length (cg_profiles g))).
    + bind_inv H. rewrite (IH _ _ H), length_app. simpl. lia.
    + apply (IH _ _ H).
Qed.

End Pairs.

(** A row of [common_grouped] lists one profile list per distinct
    perturbation of its common key. *)
Lemma group_common_perturbations (pdf : ProfileFrame) (c p : string) (pc pp : nat)
    (replicate_grouped : list replicate_group) :
  key_loc pdf c = Ok pc -> key_loc pdf p = Ok pp ->
  group_replicates pdf c p = Ok replicate_grouped ->
  Forall (fun g => List.length (cg_profiles g)
                   = List.length (perturbations_of pdf pc pp (cg_common g)))
         (group_common replicate_grouped).
Proof.
  unfold group_replicates. intros Hc Hp H. rewrite Hc, Hp in H. simpl in H.
  destruct (String.eqb c p); [discriminate|].
  inversion H; subst; clear H.
  rewrite Forall_forall. intros g Hg.
  unfold group_common in Hg. apply in_map_iff in Hg.
  destruct Hg as (name & <- & _). cbn [cg_profiles cg_common].
  rewrite length_map, filter_map_comm, length_map. cbn [rg_common].
  rewrite sort_keys_filter_length.
  unfold unique_by. rewrite unique_pairs_per_common. cbn [filter map].
  unfold perturbations_of, unique, unique_by. f_equal.
  rewrite filter_map_comm, map_map, filter_andb. reflexivity.
Qed.

(* ------------------------------------------------------------------ *)
(** ** One row of [common_grouped] per common key *)

Section DistinctKeys.
Variable K : Type.
Variable eqb : K -> K -> bool.
Hypothesis eqb_sym : forall a b, eqb a b = eqb b a.

Lemma unique_from_distinct (l : list K) :
  forall seen,
    ForallOrdPairs (fun a b => eqb a b = false) (unique_from eqb seen l)
    /\ Forall (fun x => existsb (eqb x) seen = false) (unique_from eqb seen l).
Proof.
  induction l as [|x t IH]; intro seen; simpl.
  - split; constructor.
  - destruct (existsb (eqb x) seen) eqn:E; [apply IH|].
    destruct (IH (x :: seen)) as [Hp Hs]. split.
    + constructor; [|assumption].
      rewrite Forall_forall in *. intros y Hy. specialize (Hs y Hy).
      simpl in Hs. apply orb_false_elim in Hs.
      rewrite eqb_sym. tauto.
    + constructor; [assumption|].
      rewrite Forall_forall in *. intros y Hy. specialize (Hs y Hy).
      simpl in Hs. apply orb_false_elim in Hs. tauto.
Qed.

Variable leb : K -> K -> bool.

Lemma insert_key_In (x y : K) (s : list K) :
  In y (insert_key leb x s) <-> y = x \/ In y s.
Proof.
  induction s as [|z t IH]; simpl.
  - intuition.
  - destruct (leb x z); simpl; intuition.
Qed.

Lemma insert_key_distinct (x : K) (l : list K) :
  Forall (fun b => eqb x b = false) l -> ForallOrdPairs (fun a b => eqb a b = false) l ->
  ForallOrdPairs (fun a b => eqb a b = false) (insert_key leb x l).
Proof.
  induction l as [|y t IH]; intros Hx Hl; simpl.
  - constructor; constructor.
  - destruct (leb x y).
    + constructor; assumption.
    + inversion Hx; subst. inversion Hl; subst.
      constructor; [|now apply IH].
      rewrite Forall_forall in *. intros z Hz.
      apply insert_key_In in Hz. destruct Hz as [->|Hz]; [|auto].
      simpl in *. now rewrite eqb_sym.
Qed.

Lemma sort_keys_distinct (l : list K) :
  ForallOrdPairs (fun a b => eqb a b = false) l -> ForallOrdPairs (fun a b => eqb a b = false) (sort_keys leb l).
Proof.
  induction 1 as [|x t Hx Ht IH]; simpl; [constructor|].
  apply insert_key_distinct; [|assumption].
  rewrite Forall_forall in *. intros y Hy. apply Hx.
  now apply (sort_keys_In leb t y).
Qed.
End DistinctKeys.

(** The common keys of [common_grouped] are pairwise different. *)
Lemma group_common_keys_distinct (replicate_grouped : list replicate_group) :
  all_distinct (map cg_common (group_common replicate_grouped)).
Proof.
  unfold group_common. rewrite map_map. cbn [cg_common]. rewrite map_id.
  apply sort_keys_distinct; [exact cell_eqb_sym|].
  apply (unique_from_distinct cell cell_eqb cell_eqb_sym).
Qed.

(** Every row that enters a group finds its common key in [common_grouped]. *)
Lemma group_common_covers (pdf : ProfileFrame) (c p : string) (pc pp : nat)
    (replicate_grouped : list replicate_group) :
  key_loc pdf c = Ok pc -> key_loc pdf p = Ok pp ->
  group_replicates pdf c p = Ok replicate_grouped ->
  forall r, In r (grouped_rows pdf pc pp) ->
            exists g, In g (group_common replicate_grouped)
                      /\ cell_eqb (cell_at pc (fst r)) (cg_common g) = true.
Proof.
  intros Hc Hp H r Hr.
  pose proof (group_replicates_notna _ _ _ _ H) as Hna.
  unfold group_replicates in H. rewrite Hc, Hp in H. simpl in H.
  destruct (String.eqb c p); [discriminate|].
  inversion H; subst; clear H.
  set (key := fun r : list cell * list cell => (cell_at pc (fst r), cell_at pp (fst r))) in *.
  assert (Hk : In (key r) (map key (grouped_rows pdf pc pp))) by now apply in_map.
  assert (Hrefl : forall a, pair_eqb a a = true)
    by (intro a; unfold pair_eqb; now rewrite !cell_eqb_refl).
  destruct (unique_from_covers pair_eqb _ Hrefl [] _ Hk) as [Hs|(y & Hy & Hry)];
    [discriminate|].
  apply andb_true_iff in Hry. destruct Hry as [Hry _]. simpl in Hry.
  set (rg := map _ _) in *.
  assert (Hfst : In (fst y) (filter (fun k => negb (isna k)) (map rg_common rg))).
  { assert (Hg : In (fst y) (map rg_common rg)).
    { unfold rg. rewrite map_map. cbn [rg_common].
      apply in_map_iff. exists y. split; [reflexivity|].
      apply sort_keys_In. exact Hy. }
    apply filter_In. split; [assumption|].
    apply in_map_iff in Hg. destruct Hg as (g & Hgy & Hg).
    rewrite Forall_forall in Hna. rewrite <- Hgy, (Hna g Hg). reflexivity. }
  destruct (unique_from_covers cell_eqb _ cell_eqb_refl [] _ Hfst) as [Hs|(z & Hz & Hyz)];
    [discriminate|].
  eexists. split.
  - unfold group_common. apply in_map_iff. exists z. split; [reflexivity|].
    apply sort_keys_In. exact Hz.
  - cbn [cg_common]. eapply cell_eqb_trans; eauto.
Qed.

(* ------------------------------------------------------------------ *)
(** ** percent_score: the claims *)


(** C9.  For a mode string other than ['left'], ['right'] and ['both'],
    [percent_score] falls off its end: it returns [None], raises nothing
    and builds no (fraction, threshold) result. *)
Theorem percent_score_unrecognized_mode (null_dist corr_dist : list float) (how : string) :
  how <> "left" -> how <> "right" -> how <> "both" ->
  percent_score null_dist corr_dist how = PyNone.
Proof.
  intros Hl Hr Hb. unfold percent_score.
  destruct (String.eqb_spec how "right"); [contradiction|].
  destruct (String.eqb_spec how "left"); [contradiction|].
  destruct (String.eqb_spec how "both"); [contradiction|].
  reflexivity.
Qed.

Lemma percent_score_unrecognized_mode_witness :
  percent_score range_1_100 [Some 96%Q; NaN] "two-sided" = PyNone.
Proof.
  apply percent_score_unrecognized_mode; discriminate.
Defined.




(* ------------------------------------------------------------------ *)
(** ** The correlators: the claims *)

(** The sibling path: for a common key with the profile lists [x] and [y]
    of its first two perturbations, [corr_between_perturbation_pairs]
    appends the median of their cross-correlation block. *)
Lemma pairs_loop_cross_block pearson (k : cell) (x y : list (list cell))
    (more : list (list (list cell))) (replicate_corr : list float) :
  pairs_loop pearson [{| cg_common := k; cg_profiles := x :: y :: more |}] replicate_corr
  = (v <- cross_block_median pearson x y ;; Ok (replicate_corr ++ [v])%list).
Proof.
  unfold cross_block_median. simpl.
  destruct (np_corrcoef2 pearson x y) as [corr| |]; simpl; try reflexivity.
  destruct (slice_block (List.length x) corr); reflexivity.
Qed.

(** C1 (the code departs from it).  On [example_df] the table
    [replicate_grouped] is [(A, x)] with one profile, then [(B, y)] with
    two.  When the draw is (1, 0), the appended value is the median of
    row 0, columns 1.. of the joint matrix: the coefficient of the two
    profiles of [(B, y)] with each other and one cross coefficient.  The
    cross-correlation block is rows 0..1, column 2.  With the coefficients
    of these rows (1 for equal rows, -1 for reversed ones) the code
    appends 0, the median of the cross block is -1. *)
Theorem non_pairs_block_sized_by_first_table_row :
  let b := [Some 1%Q; Some 2%Q; Some 3%Q] in
  let a := [Some 3%Q; Some 2%Q; Some 1%Q] in
  (forall pearson,
      snd (corr_between_perturbation_non_pairs cp_prefix_classifier pearson draw_1_0
             1 example_df 1 "Metadata_moa" "Metadata_broad_sample")
      = Ok [np_nanmedian [pearson b b; pearson b a]]
      /\ cross_block_median pearson
           [[num 1; num 2; num 3]; [num 1; num 2; num 3]] [[num 3; num 2; num 1]]
         = Ok (np_nanmedian [pearson b a; pearson b a]))
  /\ (exists v, snd (corr_between_perturbation_non_pairs cp_prefix_classifier toy_pearson
                       draw_1_0 1 example_df 1 "Metadata_moa" "Metadata_broad_sample")
                = Ok [v] /\ feq v (Some 0%Q))
  /\ (exists v, cross_block_median toy_pearson
                  [[num 1; num 2; num 3]; [num 1; num 2; num 3]] [[num 3; num 2; num 1]]
                = Ok v /\ feq v (Some (-1)%Q)).
Proof.
  intros b a. split; [|split].
  - intro pearson. split; reflexivity.
  - eexists. split; [vm_compute; reflexivity | vm_compute; reflexivity].
  - eexists. split; [vm_compute; reflexivity | vm_compute; reflexivity].
Qed.



(** C4.  Every value [corr_between_non_replicates] returns comes from a
    draw of [n_replicates] row positions whose rows carry [n_replicates]
    pairwise different values in the group column: a draw whose rows
    collapse to fewer values emits nothing. *)
Theorem non_replicates_emit_distinct_groups infer_cp_features pearson rnd fuel df
    n_samples n_replicates c null_corr :
  snd (corr_between_non_replicates infer_cp_features pearson rnd fuel df
         n_samples n_replicates c) = Ok null_corr ->
  exists draws,
    Forall2 (emitted_non_replicate infer_cp_features pearson rnd df n_replicates c)
            draws null_corr.
Proof.
  unfold corr_between_non_replicates. simpl. intro H.
  destruct (non_replicates_loop_emitted _ _ _ _ _ _ _ _ _ _ _ H)
    as (draws & new & -> & Hall).
  exists draws. exact Hall.
Qed.

Lemma non_replicates_emit_distinct_groups_witness :
  exists null_corr,
    snd (corr_between_non_replicates cp_prefix_classifier toy_pearson draw_1_0 2
           example_df 2 2 "Metadata_moa") = Ok null_corr
    /\ exists draws,
         Forall2 (emitted_non_replicate cp_prefix_classifier toy_pearson draw_1_0
                    example_df 2 "Metadata_moa")
                 draws null_corr.
Proof.
  eexists. split.
  - vm_compute. reflexivity.
  - apply (non_replicates_emit_distinct_groups cp_prefix_classifier toy_pearson draw_1_0
             2 example_df 2 2 "Metadata_moa").
    vm_compute. reflexivity.
Defined.

(** C5.  Every value [corr_between_perturbation_non_pairs] returns comes
    from a draw of two rows of [replicate_grouped] whose common keys
    differ: two groups with the same common key emit nothing. *)
Theorem non_pairs_emit_different_common_keys infer_cp_features pearson rnd fuel df
    n_samples c p null_corr :
  snd (corr_between_perturbation_non_pairs infer_cp_features pearson rnd fuel df
         n_samples c p) = Ok null_corr ->
  exists replicate_grouped,
    replicate_table infer_cp_features (reset_index_drop df) c p = Ok replicate_grouped
    /\ exists draws,
         Forall2 (emitted_non_pair pearson rnd replicate_grouped) draws null_corr.
Proof.
  unfold corr_between_perturbation_non_pairs, replicate_table. simpl. intro H.
  bind_inv H. rename a into profile_df, a0 into replicate_grouped.
  exists replicate_grouped. rewrite E. simpl. split; [assumption|].
  pose proof (group_replicates_notna _ _ _ _ E0) as Hna.
  destruct (non_pairs_loop_emitted pearson rnd replicate_grouped n_samples fuel Hna _ _ _ H)
    as (draws & new & -> & Hall).
  exists draws. exact Hall.
Qed.

Lemma non_pairs_emit_different_common_keys_witness :
  exists null_corr,
    snd (corr_between_perturbation_non_pairs cp_prefix_classifier toy_pearson draw_1_0 2
           example_df 2 "Metadata_moa" "Metadata_broad_sample") = Ok null_corr
    /\ exists replicate_grouped,
         replicate_table cp_prefix_classifier (reset_index_drop example_df)
           "Metadata_moa" "Metadata_broad_sample" = Ok replicate_grouped
         /\ exists draws,
              Forall2 (emitted_non_pair toy_pearson draw_1_0 replicate_grouped)
                      draws null_corr.
Proof.
  eexists. split.
  - vm_compute. reflexivity.
  - apply (non_pairs_emit_different_common_keys cp_prefix_classifier toy_pearson draw_1_0
             2 example_df 2 "Metadata_moa" "Metadata_broad_sample").
    vm_compute. reflexivity.
Defined.

(** C6.  For a count [n_samples >= 0], whenever one of the two null
    samplers returns, the list it returns has exactly [n_samples] values. *)
Theorem null_samplers_length infer_cp_features pearson rnd fuel df n_samples :
  0 <= n_samples ->
  (forall n_replicates c l,
      snd (corr_between_non_replicates infer_cp_features pearson rnd fuel df
             n_samples n_replicates c) = Ok l ->
      Z.of_nat (List.length l) = n_samples)
  /\ (forall c p l,
         snd (corr_between_perturbation_non_pairs infer_cp_features pearson rnd fuel df
                n_samples c p) = Ok l ->
         Z.of_nat (List.length l) = n_samples).
Proof.
  intro Hn. split.
  - intros n_replicates c l H.
    unfold corr_between_non_replicates in H. simpl in H.
    eapply non_replicates_loop_length; [|exact H]. simpl. lia.
  - intros c p l H.
    unfold corr_between_perturbation_non_pairs in H. simpl in H. bind_inv H.
    eapply non_pairs_loop_length; [|exact H]. simpl. lia.
Qed.

Lemma null_samplers_length_witness :
  (exists l,
      snd (corr_between_non_replicates cp_prefix_classifier toy_pearson draw_1_0 2
             example_df 2 2 "Metadata_moa") = Ok l
      /\ Z.of_nat (List.length l) = 2)
  /\ (exists l,
         snd (corr_between_perturbation_non_pairs cp_prefix_classifier toy_pearson draw_1_0 2
                example_df 2 "Metadata_moa" "Metadata_broad_sample") = Ok l
         /\ Z.of_nat (List.length l) = 2).
Proof.
  destruct (null_samplers_length cp_prefix_classifier toy_pearson draw_1_0 2 example_df 2)
    as [Hr Hp]; [lia|].
  split; eexists; (split; [vm_compute; reflexivity|]).
  - apply (Hr 2 "Metadata_moa"). vm_compute. reflexivity.
  - apply (Hp "Metadata_moa" "Metadata_broad_sample"). vm_compute. reflexivity.
Defined.

(** C7, as stated, fails when the grouping column is itself called
    [correlation]: the dict literal of the appended row then has one key,
    the row keeps the NaN and loses the key value of the group. *)
Lemma replicates_key_named_correlation :
  ~ (forall infer_cp_features pearson df c result p r,
        snd (corr_between_replicates infer_cp_features pearson df c) = Ok result ->
        get_loc (columns df) c = Some p ->
        isna (cell_at p (snd r)) = false ->
        filter (fun r' => cell_eqb (cell_at p (snd r')) (cell_at p (snd r))) (rows df) = [r] ->
        exists d, In d result
                  /\ dict_get d c = Some (cell_at p (snd r))
                  /\ dict_get d "correlation" = Some (Num NaN)).
Proof.
  intro H.
  destruct (H cp_prefix_classifier toy_pearson example_correlation_df "correlation"
              [[("correlation", Num NaN)]; [("correlation", Num (Some (-2 # 2)%Q))]]
              O (0, [Str "g"; num 1; num 2]))
    as (d & Hd & Hkey & _); try (vm_compute; reflexivity).
  destruct Hd as [<-|[<-|[]]]; vm_compute in Hkey; discriminate Hkey.
Qed.

(** C7, amended.  When the grouping column is not called [correlation],
    a row of the frame that is alone with its key value, the key not
    being NaN, has a row in the result that pairs this key value with the
    correlation NaN. *)
Theorem replicates_single_row_group_nan infer_cp_features pearson df c result p r :
  c <> "correlation" ->
  snd (corr_between_replicates infer_cp_features pearson df c) = Ok result ->
  get_loc (columns df) c = Some p ->
  isna (cell_at p (snd r)) = false ->
  filter (fun r' => cell_eqb (cell_at p (snd r')) (cell_at p (snd r))) (rows df) = [r] ->
  exists d, In d result
            /\ dict_get d c = Some (cell_at p (snd r))
            /\ dict_get d "correlation" = Some (Num NaN).
Proof.
  intros Hc H Hp Hna Hone. unfold corr_between_replicates in H. simpl in H.
  bind_inv H. rename a into groups.
  destruct (groupby_single_row _ _ _ _ _ E Hp Hna Hone) as (group & Hin & Hlen).
  destruct (replicates_loop_rows _ _ _ _ _ _ H) as (new & -> & Hall).
  destruct (Forall2_In_l _ _ _ _ Hall Hin) as (d & Hd & v & -> & Hv).
  simpl in Hv. specialize (Hv Hlen). subst v.
  eexists. split; [exact Hd|]. unfold dict2.
  destruct (String.eqb_spec c "correlation") as [|_]; [contradiction|].
  simpl. rewrite String.eqb_refl.
  destruct (String.eqb_spec c "correlation") as [|_]; [contradiction|].
  split; reflexivity.
Qed.

Lemma replicates_single_row_group_nan_witness :
  exists d,
    In d [[("Metadata_moa", Str "A"); ("correlation", Num NaN)];
          [("Metadata_moa", Str "B"); ("correlation", Num (Some (2 # 2)%Q))]]
    /\ dict_get d "Metadata_moa" = Some (Str "A")
    /\ dict_get d "correlation" = Some (Num NaN).
Proof.
  apply (replicates_single_row_group_nan cp_prefix_classifier toy_pearson example_df
           "Metadata_moa" _ O (20, [Str "A"; Str "x"; num 3; num 2; num 1])).
  - discriminate.
  - vm_compute. reflexivity.
  - reflexivity.
  - reflexivity.
  - vm_compute. reflexivity.
Defined.

(** C8.  [corr_between_perturbation_pairs] returns one value per row of
    [common_grouped] whose common key has two or more distinct
    perturbations, and none for a key with one perturbation.  The rows of
    [common_grouped] have pairwise different common keys, and every row of
    the frame with both keys finds its common key among them. *)
Theorem pairs_skip_single_perturbation infer_cp_features pearson df c p l :
  snd (corr_between_perturbation_pairs infer_cp_features pearson df c p) = Ok l ->
  exists pdf pc pp replicate_grouped,
    make_profile_df infer_cp_features df = Ok pdf
    /\ key_loc pdf c = Ok pc /\ key_loc pdf p = Ok pp
    /\ group_replicates pdf c p = Ok replicate_grouped
    /\ List.length l
       = List.length
           (filter (fun g => Nat.leb 2 (List.length (perturbations_of pdf pc pp (cg_common g))))
                   (group_common replicate_grouped))
    /\ all_distinct (map cg_common (group_common replicate_grouped))
    /\ (forall r, In r (grouped_rows pdf pc pp) ->
                  exists g, In g (group_common replicate_grouped)
                            /\ cell_eqb (cell_at pc (fst r)) (cg_common g) = true).
Proof.
  unfold corr_between_perturbation_pairs. simpl. intro H.
  bind_inv H. rename a into pdf, a0 into replicate_grouped.
  assert (Hkeys : exists pc pp, key_loc pdf c = Ok pc /\ key_loc pdf p = Ok pp).
  { unfold group_replicates in E0.
    destruct (key_loc pdf c) as [pc| |]; try discriminate.
    destruct (key_loc pdf p) as [pp| |]; try discriminate. eauto. }
  destruct Hkeys as (pc & pp & Hpc & Hpp).
  exists pdf, pc, pp, replicate_grouped.
  repeat (split; [assumption|]).
  split; [|split].
  - rewrite (pairs_loop_length _ _ _ _ H). simpl. f_equal.
    apply filter_ext_in. intros g Hg.
    pose proof (group_common_perturbations _ _ _ _ _ _ Hpc Hpp E0) as Hcount.
    rewrite Forall_forall in Hcount. now rewrite (Hcount g Hg).
  - apply group_common_keys_distinct.
  - apply (group_common_covers _ _ _ _ _ _ Hpc Hpp E0).
Qed.

Lemma pairs_skip_single_perturbation_witness :
  exists l pdf pc pp replicate_grouped,
    snd (corr_between_perturbation_pairs cp_prefix_classifier toy_pearson example_pairs_df
           "Metadata_moa" "Metadata_broad_sample") = Ok l
    /\ List.length l = 1%nat
    /\ make_profile_df cp_prefix_classifier example_pairs_df = Ok pdf
    /\ key_loc pdf "Metadata_moa" = Ok pc /\ key_loc pdf "Metadata_broad_sample" = Ok pp
    /\ group_replicates pdf "Metadata_moa" "Metadata_broad_sample" = Ok replicate_grouped
    /\ List.length l
       = List.length
           (filter (fun g => Nat.leb 2 (List.length (perturbations_of pdf pc pp (cg_common g))))
                   (group_common replicate_grouped))
    /\ all_distinct (map cg_common (group_common replicate_grouped))
    /\ (forall r, In r (grouped_rows pdf pc pp) ->
                  exists g, In g (group_common replicate_grouped)
                            /\ cell_eqb (cell_at pc (fst r)) (cg_common g) = true).
Proof.
  destruct (pairs_skip_single_perturbation cp_prefix_classifier toy_pearson example_pairs_df
              "Metadata_moa" "Metadata_broad_sample" [Some 1%Q])
    as (pdf & pc & pp & rg & H); [vm_compute; reflexivity|].
  exists [Some 1%Q], pdf, pc, pp, rg.
  split; [vm_compute; reflexivity|]. split; [reflexivity|]. exact H.
Defined.

(* ------------------------------------------------------------------ *)
(** ** percent_score: the other modes and the edges *)


Lemma drop_nan_In_inv (x : Q) (l : list float) : In x (drop_nan l) -> In (Some x) l.
Proof.
  induction l as [|[y|] t IH]; simpl; [tauto| |].
  - intros [->|H]; auto.
  - auto.
Qed.

Lemma drop_nan_no_number (l : list float) : no_number l -> drop_nan l = [].
Proof.
  intro H. destruct (drop_nan l) as [|x t] eqn:E; [reflexivity|].
  exfalso. apply (H x), drop_nan_In_inv. rewrite E. now left.
Qed.

Lemma np_nanpercentile_no_number (a : list float) (p : Q) :
  no_number a -> np_nanpercentile a p = NaN.
Proof.
  intro H. unfold np_nanpercentile. now rewrite (drop_nan_no_number a H).
Qed.



Lemma fraction_where_nonempty (beyond : float -> bool) (dist : list float) :
  dist <> [] ->
  fraction_where beyond dist
  = Some (inject_Z (Z.of_nat (List.length (filter beyond dist)))
          / inject_Z (Z.of_nat (List.length dist)))%Q.
Proof. destruct dist; [contradiction | reflexivity]. Qed.



Lemma mask_fraction_bounds (f : float -> bool) (l : list float) :
  l <> [] ->
  exists v, np_mean (map astype_float (map f l)) = Some v /\ (0 <= v)%Q /\ (v <= 1)%Q.
Proof.
  intro Hne. destruct (fraction_where_value f l Hne) as (v & Hv & Hq).
  exists v. split; [assumption|].
  assert (Hn : (0 < inject_Z (Z.of_nat (List.length l)))%Q).
  { rewrite <- (Zlt_Qlt 0). destruct l; [contradiction | simpl; lia]. }
  assert (Hc0 : (0 <= inject_Z (Z.of_nat (List.length (filter f l))))%Q)
    by (rewrite <- (Zle_Qle 0); lia).
  assert (Hcn : (inject_Z (Z.of_nat (List.length (filter f l)))
                 <= inject_Z (Z.of_nat (List.length l)))%Q).
  { rewrite <- Zle_Qle. pose proof (filter_length_le f l). lia. }
  rewrite Hq. split.
  - apply Qle_shift_div_l; [assumption|]. lra.
  - apply Qle_shift_div_r; [assumption|]. lra.
Qed.

(** X3.  For a non-empty [corr_dist], the fraction returned in mode
    ['right'] and the one returned in mode ['left'] are numbers between 0
    and 1, whatever [null_dist] holds. *)
Theorem percent_score_fraction_bounds (null_dist corr_dist : list float) :
  corr_dist <> [] ->
  (exists f t, percent_score null_dist corr_dist "right" = Tuple2 (Some f) t
               /\ (0 <= f)%Q /\ (f <= 1)%Q)
  /\ (exists f t, percent_score null_dist corr_dist "left" = Tuple2 (Some f) t
                  /\ (0 <= f)%Q /\ (f <= 1)%Q).
Proof.
  intro Hne. split.
  - destruct (mask_fraction_bounds (fun c => fgt c (np_nanpercentile null_dist 95))
                corr_dist Hne) as (v & Hv & Hb).
    exists v, (np_nanpercentile null_dist 95). split; [|exact Hb].
    unfold percent_score. simpl String.eqb. cbv iota zeta. now rewrite Hv.
  - destruct (mask_fraction_bounds (fun c => flt c (np_nanpercentile null_dist 5))
                corr_dist Hne) as (v & Hv & Hb).
    exists v, (np_nanpercentile null_dist 5). split; [|exact Hb].
    unfold percent_score. simpl String.eqb. cbv iota zeta. now rewrite Hv.
Qed.

Lemma percent_score_fraction_bounds_witness :
  (exists f t, percent_score [NaN; Some 3%Q] [Some 5%Q; NaN; Some 1%Q] "right"
               = Tuple2 (Some f) t /\ (0 <= f)%Q /\ (f <= 1)%Q)
  /\ (exists f t, percent_score [NaN; Some 3%Q] [Some 5%Q; NaN; Some 1%Q] "left"
                  = Tuple2 (Some f) t /\ (0 <= f)%Q /\ (f <= 1)%Q).
Proof.
  apply (percent_score_fraction_bounds [NaN; Some 3%Q] [Some 5%Q; NaN; Some 1%Q]).
  discriminate.
Defined.

Lemma mask_all_false_mean (f : float -> bool) (l : list float) :
  l <> [] -> (forall c, f c = false) ->
  exists v, np_mean (map astype_float (map f l)) = Some v /\ (v == 0)%Q.
Proof.
  intros Hne Hf. destruct (fraction_where_value f l Hne) as (v & Hv & Hq).
  exists v. split; [assumption|]. rewrite Hq.
  assert (Hnil : filter f l = []).
  { clear -Hf. induction l as [|x t IH]; [reflexivity|]. simpl. now rewrite Hf. }
  rewrite Hnil. simpl. unfold Qdiv. ring.
Qed.

(** X4.  When [null_dist] holds no number (it is empty or all NaN), every
    threshold is NaN, nothing compares beyond it, and for a non-empty
    [corr_dist] the fraction is 0 in each of the three modes. *)
Theorem percent_score_null_without_numbers (null_dist corr_dist : list float) :
  no_number null_dist ->
  corr_dist <> [] ->
  (exists f, percent_score null_dist corr_dist "right" = Tuple2 (Some f) NaN /\ (f == 0)%Q)
  /\ (exists f, percent_score null_dist corr_dist "left" = Tuple2 (Some f) NaN /\ (f == 0)%Q)
  /\ (exists f, percent_score null_dist corr_dist "both" = Tuple3 (Some f) NaN NaN
                /\ (f == 0)%Q).
Proof.
  intros Hnull Hne.
  assert (Hgt : forall c, fgt c NaN = false) by (intros [c|]; reflexivity).
  assert (Hlt : forall c, flt c NaN = false) by (intros [c|]; reflexivity).
  destruct (mask_all_false_mean (fun c => fgt c NaN) corr_dist Hne Hgt) as (a & Ha & Ha0).
  destruct (mask_all_false_mean (fun c => flt c NaN) corr_dist Hne Hlt) as (b & Hb & Hb0).
  unfold percent_score. simpl String.eqb. cbv iota zeta.
  rewrite !(np_nanpercentile_no_number null_dist _ Hnull), Ha, Hb.
  split; [|split].
  - exists a. split; [reflexivity | assumption].
  - exists b. split; [reflexivity | assumption].
  - exists (a + b)%Q. split; [reflexivity|]. rewrite Ha0, Hb0. reflexivity.
Qed.

Lemma percent_score_null_without_numbers_witness :
  (exists f, percent_score [NaN; NaN] [Some 5%Q; NaN] "right" = Tuple2 (Some f) NaN
             /\ (f == 0)%Q)
  /\ (exists f, percent_score [NaN; NaN] [Some 5%Q; NaN] "left" = Tuple2 (Some f) NaN
                /\ (f == 0)%Q)
  /\ (exists f, percent_score [NaN; NaN] [Some 5%Q; NaN] "both" = Tuple3 (Some f) NaN NaN
                /\ (f == 0)%Q).
Proof.
  apply (percent_score_null_without_numbers [NaN; NaN] [Some 5%Q; NaN]).
  - intros x [H|[H|[]]]; discriminate H.
  - discriminate.
Defined.




(* ------------------------------------------------------------------ *)
(** ** corr_between_replicates: rows and values *)

Lemma insert_key_length {K : Type} (leb : K -> K -> bool) (x : K) (l : list K) :
  List.length (insert_key leb x l) = S (List.length l).
Proof.
  induction l as [|y t IH]; simpl; [reflexivity|].
  destruct (leb x y); simpl; [reflexivity | now rewrite IH].
Qed.

Lemma sort_keys_length {K : Type} (leb : K -> K -> bool) (l : list K) :
  List.length (sort_keys leb l) = List.length l.
Proof.
  induction l as [|x t IH]; simpl; [reflexivity|].
  now rewrite insert_key_length, IH.
Qed.

Lemma drop_nan_app (l l' : list float) :
  drop_nan (l ++ l') = (drop_nan l ++ drop_nan l')%list.
Proof.
  induction l as [|[x|] t IH]; simpl; [reflexivity| |]; now rewrite IH.
Qed.

Lemma drop_nan_set_nth (i : nat) (r : list float) :
  drop_nan (set_nth i NaN r) = drop_nan (remove_nth i r).
Proof.
  revert i. induction r as [|x t IH]; intros [|i]; simpl; try reflexivity.
  destruct x; now rewrite IH.
Qed.

Lemma drop_nan_fill_diagonal (m : list (list float)) :
  forall i, drop_nan (List.concat (fill_diagonal_from i m))
            = drop_nan (off_diagonal_from i m).
Proof.
  induction m as [|r t IH]; intro i; simpl; [reflexivity|].
  now rewrite !drop_nan_app, drop_nan_set_nth, IH.
Qed.

(** With the diagonal set to NaN, the NaN-aware median sees the entries
    off the diagonal and no other. *)
Lemma np_nanmedian_fill_diagonal (m : list (list float)) :
  np_nanmedian (flatten (Matrix (fill_diagonal_from 0 m)))
  = np_nanmedian (off_diagonal_from 0 m).
Proof. unfold np_nanmedian. simpl flatten. now rewrite drop_nan_fill_diagonal. Qed.

Section ReplicateValues.
Variable infer_cp_features : DataFrame -> bool -> res (list string).
Variable pearson : list float -> list float -> float.

(** The correlation matrix of two rows or more, its diagonal set to NaN,
    has the pairwise coefficients of different rows as its median. *)
Lemma corrcoef_fill_diagonal_median (X : list (list cell)) (corr corr' : ndarray) :
  np_corrcoef pearson X = Ok corr ->
  np_fill_diagonal corr = Ok corr' ->
  exists xs,
    mapM (mapM to_float) X = Ok xs
    /\ List.length xs <> 1%nat
    /\ np_nanmedian (flatten corr') = np_nanmedian (pairwise_coefficients pearson xs).
Proof.
  unfold np_corrcoef. intros H Hfill. bind_inv H. rename a into xs.
  exists xs. split; [assumption|].
  assert (Hc : (exists r, corr = Scalar (pearson r r))
               \/ (List.length xs <> 1%nat
                   /\ corr = Matrix (map (fun a => map (fun b => pearson a b) xs) xs))).
  { destruct xs as [|r [|r' rest]]; lazy iota in H; injection H as <-.
    - right. split; [discriminate | reflexivity].
    - left. eauto.
    - right. split; [discriminate | reflexivity]. }
  destruct Hc as [(r & ->)|(Hlen & ->)]; [discriminate Hfill|].
  unfold np_fill_diagonal in Hfill. injection Hfill as <-.
  split; [assumption|]. apply np_nanmedian_fill_diagonal.
Qed.


End ReplicateValues.

(** X6.  When [corr_between_replicates] returns, its frame has one row for
    each distinct value of the grouping column that is not NaN: rows with
    a NaN key enter no group, and repeated keys share a row. *)
Theorem replicates_one_row_per_key infer_cp_features pearson df c result :
  snd (corr_between_replicates infer_cp_features pearson df c) = Ok result ->
  exists keys,
    getitem df c = Ok keys
    /\ List.length result = List.length (unique (filter (fun k => negb (isna k)) keys)).
Proof.
  unfold corr_between_replicates. simpl. intro H. bind_inv H. rename a into groups.
  destruct (replicates_loop_rows _ _ _ _ _ _ H) as (new & -> & Hall).
  apply Forall2_length in Hall. simpl. rewrite <- Hall.
  unfold groupby in E. unfold getitem.
  destruct (column_loc (columns df) c) as [p| |] eqn:Hc; simpl in E; try discriminate.
  simpl. eexists. split; [reflexivity|].
  inversion E; subst. now rewrite length_map, sort_keys_length.
Qed.

Lemma replicates_one_row_per_key_witness :
  exists result keys,
    snd (corr_between_replicates cp_prefix_classifier toy_pearson example_df "Metadata_moa")
    = Ok result
    /\ getitem example_df "Metadata_moa" = Ok keys
    /\ List.length result = List.length (unique (filter (fun k => negb (isna k)) keys)).
Proof.
  eexists.
  destruct (replicates_one_row_per_key cp_prefix_classifier toy_pearson example_df
              "Metadata_moa" _ eq_refl) as (keys & Hk & Hlen).
  exists keys. split; [reflexivity|]. split; assumption.
Defined.



(* ------------------------------------------------------------------ *)
(** ** corr_between_non_replicates: draws that cannot be accepted *)

Section Pigeonhole.
Variable K : Type.
Variable eqb : K -> K -> bool.
Hypothesis eqb_refl : forall a, eqb a a = true.
Hypothesis eqb_sym : forall a b, eqb a b = eqb b a.
Hypothesis eqb_trans : forall a b c, eqb a b = true -> eqb b c = true -> eqb a c = true.

Lemma filter_length_lt (f : K -> bool) (l : list K) (b : K) :
  In b l -> f b = false -> (List.length (filter f l) < List.length l)%nat.
Proof.
  induction l as [|x t IH]; intros Hin Hb; [contradiction|].
  simpl. destruct Hin as [->|Hin].
  - rewrite Hb. pose proof (filter_length_le f t). lia.
  - specialize (IH Hin Hb). destruct (f x); simpl; lia.
Qed.

(** Pairwise different keys that all occur in [B] are no more than [B] is long. *)
Lemma distinct_covered_length (A : list K) :
  forall B,
    ForallOrdPairs (fun a b => eqb a b = false) A ->
    (forall a, In a A -> exists b, In b B /\ eqb a b = true) ->
    (List.length A <= List.length B)%nat.
Proof.
  induction A as [|a A' IH]; intros B Hd Hc; simpl; [lia|].
  inversion Hd as [|? ? Ha Hd']; subst.
  destruct (Hc a (or_introl eq_refl)) as (b0 & Hb0 & Hab0).
  assert (Hlt : (List.length (filter (fun b => negb (eqb a b)) B) < List.length B)%nat).
  { apply (filter_length_lt _ B b0); [assumption|]. now rewrite Hab0. }
  assert (Hle : (List.length A' <= List.length (filter (fun b => negb (eqb a b)) B))%nat).
  { apply IH; [assumption|]. intros a' Ha'.
    destruct (Hc a' (or_intror Ha')) as (b & Hb & Hab).
    exists b. split; [|assumption]. apply filter_In. split; [assumption|].
    apply negb_true_iff. destruct (eqb a b) eqn:E; [|reflexivity].
    rewrite Forall_forall in Ha. specialize (Ha a' Ha').
    rewrite eqb_sym in Hab. rewrite (eqb_trans a b a' E Hab) in Ha. discriminate. }
  lia.
Qed.

(** A list drawn from the values of another has no more distinct values. *)
Lemma unique_length_incl (l l' : list K) :
  (forall x, In x l -> In x l') ->
  (List.length (unique_by eqb l) <= List.length (unique_by eqb l'))%nat.
Proof.
  intro Hincl. apply distinct_covered_length.
  - apply (unique_from_distinct K eqb eqb_sym).
  - intros a Ha. apply unique_from_In in Ha.
    destruct (unique_from_covers eqb l' eqb_refl [] a (Hincl a Ha)) as [Hs|Hy];
      [discriminate | exact Hy].
Qed.
End Pigeonhole.

Lemma random_choices_range (rnd : random_source) call n k compounds :
  (0 < n)%nat ->
  random_choices rnd call n k = Ok compounds ->
  Forall (fun i => (i < n)%nat) compounds.
Proof.
  unfold random_choices. intros Hn H.
  destruct ((0 <? k) && Nat.eqb n 0); [discriminate|].
  inversion H; subst. rewrite Forall_forall. intros i Hi.
  apply in_map_iff in Hi. destruct Hi as (j & <- & _).
  apply Nat.mod_upper_bound. lia.
Qed.

Lemma random_choices_Ok (rnd : random_source) call n k :
  (0 < n)%nat -> exists compounds, random_choices rnd call n k = Ok compounds.
Proof.
  intro Hn. unfold random_choices.
  destruct (Nat.eqb_spec n 0) as [->|_]; [lia|].
  rewrite andb_false_r. eauto.
Qed.

(** After [reset_index], positions below [len(df)] are labels of the frame. *)
Lemma loc_reset_Ok (df : DataFrame) (compounds : list nat) :
  Forall (fun i => (i < len df)%nat) compounds ->
  exists sample, loc (reset_index_drop df) (map Z.of_nat compounds) = Ok sample.
Proof.
  intro H. unfold loc.
  assert (Hm : exists rs, mapM (loc_label (reset_index_drop df)) (map Z.of_nat compounds)
                          = Ok rs).
  { induction H as [|i t Hi _ (rs & IH)]; simpl; [eauto|].
    rewrite loc_label_reset.
    destruct (nth_error (values df) i) as [r|] eqn:En.
    - simpl. rewrite IH. simpl. eauto.
    - apply nth_error_None in En. rewrite values_length in En. lia. }
  destruct Hm as (rs & ->). simpl. eauto.
Qed.

Section Rejection.
Variable infer_cp_features : DataFrame -> bool -> res (list string).
Variable pearson : list float -> list float -> float.
Variable rnd : random_source.

(** With more replicates asked for than the group column has values, every
    draw is rejected. *)
Lemma non_replicates_loop_starves (df : DataFrame) n_samples n_replicates c col fuel :
  (0 < len df)%nat ->
  getitem df c = Ok col ->
  Z.of_nat (List.length (unique col)) < n_replicates ->
  forall call null_corr,
    Z.of_nat (List.length null_corr) < n_samples ->
    non_replicates_loop infer_cp_features pearson rnd fuel call (reset_index_drop df)
      n_samples n_replicates c null_corr = OutOfFuel.
Proof.
  intros Hlen Hcol Hmany.
  induction fuel as [|fuel IH]; intros call null_corr Hlt;
    rewrite non_replicates_loop_unfold;
    destruct (Z.ltb_spec (Z.of_nat (List.length null_corr)) n_samples); try lia;
    [reflexivity|].
  rewrite reset_index_drop_len.
  destruct (random_choices_Ok rnd call (len df) n_replicates Hlen) as (compounds & Hc).
  rewrite Hc. simpl.
  pose proof (random_choices_range _ _ _ _ _ Hlen Hc) as Hrange.
  destruct (loc_reset_Ok df compounds Hrange) as (sample & Hs).
  rewrite Hs. simpl.
  destruct (loc_reset _ _ _ Hs) as (Hcols & Hvals & _).
  destruct (getitem_Ok _ _ _ Hcol) as (p & Hp & Hcolv).
  unfold getitem, column_loc. rewrite Hcols, Hp. simpl.
  assert (Hle : (List.length (unique (map (cell_at p) (values sample)))
                 <= List.length (unique col))%nat).
  { apply (unique_length_incl cell cell_eqb cell_eqb_refl cell_eqb_sym cell_eqb_trans).
    intros x Hx. rewrite Hvals, map_map in Hx. apply in_map_iff in Hx.
    destruct Hx as (i & <- & Hi). rewrite Hcolv. apply in_map.
    apply nth_In. rewrite values_length.
    rewrite Forall_forall in Hrange. now apply Hrange. }
  destruct (Z.eqb_spec (Z.of_nat (List.length (unique (map (cell_at p) (values sample)))))
              n_replicates) as [Heq|_]; [lia|].
  apply IH. assumption.
Qed.

End Rejection.

(** X8.  On a non-empty frame, when more replicates are asked for than the
    group column has distinct values, [corr_between_non_replicates] accepts
    no draw: for [n_samples > 0] it neither returns nor raises, however
    long it runs. *)
Theorem non_replicates_too_many_replicates infer_cp_features pearson rnd fuel df
    n_samples n_replicates c col :
  0 < n_samples ->
  (0 < len df)%nat ->
  getitem df c = Ok col ->
  Z.of_nat (List.length (unique col)) < n_replicates ->
  snd (corr_between_non_replicates infer_cp_features pearson rnd fuel df
         n_samples n_replicates c) = OutOfFuel.
Proof.
  intros Hn Hlen Hcol Hmany. unfold corr_between_non_replicates. simpl.
  eapply non_replicates_loop_starves; eauto.
Qed.

Lemma non_replicates_too_many_replicates_witness :
  snd (corr_between_non_replicates cp_prefix_classifier toy_pearson draw_1_0 7 example_df
         1 3 "Metadata_moa") = OutOfFuel.
Proof.
  apply (non_replicates_too_many_replicates cp_prefix_classifier toy_pearson draw_1_0 7
           example_df 1 3 "Metadata_moa" [Str "B"; Str "A"; Str "B"]).
  - lia.
  - unfold len. simpl. lia.
  - reflexivity.
  - vm_compute. reflexivity.
Defined.

(* ------------------------------------------------------------------ *)
(** ** The null samplers: values and edges *)

Section SamplerValues.
Variable infer_cp_features : DataFrame -> bool -> res (list string).
Variable pearson : list float -> list float -> float.
Variable rnd : random_source.

Lemma median_replicate_corr_value (sample : DataFrame) (v : float) :
  median_replicate_corr infer_cp_features pearson sample = Ok v ->
  exists sample_features xs,
    get_featuredata infer_cp_features sample = Ok sample_features
    /\ mapM (mapM to_float) (values sample_features) = Ok xs
    /\ List.length xs = len sample
    /\ List.length xs <> 1%nat
    /\ v = np_nanmedian (pairwise_coefficients pearson xs).
Proof.
  unfold median_replicate_corr. intro H. bind_inv H.
  rename a into sample_features, a0 into corr, a1 into corr'.
  destruct (corrcoef_fill_diagonal_median pearson _ _ _ E0 E1) as (xs & Hxs & Hlen & Hmed).
  exists sample_features, xs. split; [assumption|]. split; [assumption|].
  split; [|split; [assumption|]].
  - rewrite (mapM_length _ _ _ Hxs), values_length.
    unfold get_featuredata in E. apply bind_Ok in E. destruct E as (cols & _ & Hg).
    now apply getitem_list_len in Hg.
  - inversion H; subst. assumption.
Qed.

End SamplerValues.

(** X9.  Every value [corr_between_non_replicates] returns is the NaN-aware
    median of the coefficients between different rows among the drawn
    rows: the coefficient of a drawn row with itself never enters it. *)
Theorem non_replicates_values_are_pairwise_medians infer_cp_features pearson rnd fuel df
    n_samples n_replicates c null_corr :
  snd (corr_between_non_replicates infer_cp_features pearson rnd fuel df
         n_samples n_replicates c) = Ok null_corr ->
  exists draws,
    Forall2 (non_replicate_value infer_cp_features pearson df) draws null_corr.
Proof.
  unfold corr_between_non_replicates. simpl. intro H.
  destruct (non_replicates_loop_emitted _ _ _ _ _ _ _ _ _ _ _ H)
    as (draws & new & -> & Hall).
  exists draws. simpl. eapply Forall2_impl; [|exact Hall].
  intros compounds v (_ & _ & sample & Hs & Hv & Hm).
  destruct (median_replicate_corr_value _ _ _ _ Hm) as (sf & xs & Hsf & Hxs & _ & _ & ->).
  exists sample, sf, xs. auto.
Qed.

Lemma non_replicates_values_are_pairwise_medians_witness :
  exists null_corr,
    snd (corr_between_non_replicates cp_prefix_classifier toy_pearson draw_1_0 2
           example_df 2 2 "Metadata_moa") = Ok null_corr
    /\ exists draws,
         Forall2 (non_replicate_value cp_prefix_classifier toy_pearson example_df)
                 draws null_corr.
Proof.
  eexists. split.
  - vm_compute. reflexivity.
  - apply (non_replicates_values_are_pairwise_medians cp_prefix_classifier toy_pearson
             draw_1_0 2 example_df 2 2 "Metadata_moa").
    vm_compute. reflexivity.
Defined.

(** X10.  With [n_replicates = 1] and [n_samples > 0],
    [corr_between_non_replicates] never returns a list: a sample of one
    row is always accepted, its correlation is a 0-d value, and
    [np.fill_diagonal] refuses it. *)
Theorem non_replicates_single_replicate_never_returns infer_cp_features pearson rnd fuel df
    n_samples c null_corr :
  0 < n_samples ->
  snd (corr_between_non_replicates infer_cp_features pearson rnd fuel df
         n_samples 1 c) <> Ok null_corr.
Proof.
  intros Hn H. unfold corr_between_non_replicates in H. simpl in H.
  assert (Hlen : Z.of_nat (List.length null_corr) = n_samples).
  { eapply non_replicates_loop_length; [|exact H]. simpl. lia. }
  destruct (non_replicates_loop_emitted _ _ _ _ _ _ _ _ _ _ _ H)
    as (draws & new & -> & Hall).
  simpl in Hlen. destruct Hall as [|compounds v draws new Hem _]; [simpl in Hlen; lia|].
  destruct Hem as (_ & (Hk & _) & sample & _ & Hv & Hm).
  destruct (median_replicate_corr_value _ _ _ _ Hm) as (sf & xs & _ & _ & Hxs & Hne & _).
  apply Hne. rewrite Hxs, <- values_length, Hv, length_map. lia.
Qed.

Lemma non_replicates_single_replicate_never_returns_witness :
  snd (corr_between_non_replicates cp_prefix_classifier toy_pearson draw_1_0 3 example_df
         1 1 "Metadata_moa") <> Ok [Some 1%Q].
Proof.
  apply (non_replicates_single_replicate_never_returns cp_prefix_classifier toy_pearson
           draw_1_0 3 example_df 1 "Metadata_moa" [Some 1%Q]).
  lia.
Defined.






Section NonPairs.
Variable pearson : list float -> list float -> float.
Variable rnd : random_source.

(** When all the groups of the table share one common key, every draw is
    rejected. *)
Lemma non_pairs_loop_starves (replicate_grouped : list replicate_group) (k : cell)
    n_samples fuel :
  replicate_grouped <> [] ->
  Forall (fun g => isna (rg_common g) = false) replicate_grouped ->
  Forall (fun g => cell_eqb (rg_common g) k = true) replicate_grouped ->
  forall call null_corr,
    Z.of_nat (List.length null_corr) < n_samples ->
    non_pairs_loop pearson rnd fuel call replicate_grouped n_samples null_corr = OutOfFuel.
Proof.
  intros Hne Hna Hsame.
  assert (Hlen : (0 < List.length replicate_grouped)%nat)
    by (destruct replicate_grouped; [contradiction | simpl; lia]).
  induction fuel as [|fuel IH]; intros call null_corr Hlt;
    rewrite non_pairs_loop_unfold;
    destruct (Z.ltb_spec (Z.of_nat (List.length null_corr)) n_samples); try lia;
    [reflexivity|].
  destruct (random_choices_Ok rnd call _ 2 Hlen) as (compounds & Hc).
  rewrite Hc. simpl bind.
  pose proof (random_choices_range _ _ _ _ _ Hlen Hc) as Hrange.
  rewrite (random_choices_two _ _ _ _ Hc) in Hrange.
  inversion Hrange as [|? ? H0 Hrange']; subst. inversion Hrange' as [|? ? H1 _]; subst.
  unfold iloc.
  destruct (nth_error replicate_grouped (nth 0 compounds O)) as [g1|] eqn:E1;
    [|apply nth_error_None in E1; lia].
  destruct (nth_error replicate_grouped (nth 1 compounds O)) as [g2|] eqn:E2;
    [|apply nth_error_None in E2; lia].
  simpl bind. apply nth_error_In in E1, E2.
  rewrite Forall_forall in Hna, Hsame.
  rewrite py_ne_notna by auto.
  rewrite (cell_eqb_trans _ k _ (Hsame g1 E1)) by (rewrite cell_eqb_sym; auto).
  simpl. apply IH. assumption.
Qed.

(** When the first row of the table has as many profiles as the first group
    drawn, the block the loop cuts out is the cross-correlation block. *)
Lemma emitted_non_pair_balanced (replicate_grouped : list replicate_group) (n : nat)
    (draw : nat * nat) (v : float) :
  Forall (fun g => List.length (rg_profiles g) = n) replicate_grouped ->
  emitted_non_pair pearson rnd replicate_grouped draw v ->
  cross_block_of_draw pearson replicate_grouped draw v.
Proof.
  intros Hbal (_ & g1 & g2 & H1 & H2 & _ & corr & first & block & Hc & Hf & Hs & ->).
  exists g1, g2. split; [assumption|]. split; [assumption|].
  rewrite Forall_forall in Hbal.
  unfold cross_block_median. rewrite Hc. simpl.
  rewrite (Hbal g1) by (eapply nth_error_In; eauto).
  rewrite <- (Hbal first) by (eapply nth_error_In; eauto).
  rewrite Hs. reflexivity.
Qed.

End NonPairs.

(** X13.  When the table of groups is not empty and all its groups share
    one common key, [corr_between_perturbation_non_pairs] accepts no draw:
    for [n_samples > 0] it neither returns nor raises, however long it
    runs. *)
Theorem non_pairs_single_common_key infer_cp_features pearson rnd fuel df n_samples c p
    replicate_grouped k :
  0 < n_samples ->
  replicate_table infer_cp_features (reset_index_drop df) c p = Ok replicate_grouped ->
  replicate_grouped <> [] ->
  Forall (fun g => cell_eqb (rg_common g) k = true) replicate_grouped ->
  snd (corr_between_perturbation_non_pairs infer_cp_features pearson rnd fuel df
         n_samples c p) = OutOfFuel.
Proof.
  intros Hn Hrg Hne Hsame. unfold corr_between_perturbation_non_pairs. cbn [snd].
  unfold replicate_table in Hrg. bind_inv Hrg.
  rewrite E. cbn [bind]. rewrite Hrg. cbn [bind].
  apply (non_pairs_loop_starves pearson rnd replicate_grouped k); try assumption.
  eapply group_replicates_notna; eauto.
Qed.

Lemma non_pairs_single_common_key_witness :
  snd (corr_between_perturbation_non_pairs cp_prefix_classifier toy_pearson draw_1_0 9
         example_one_mechanism_df 1 "Metadata_moa" "Metadata_broad_sample") = OutOfFuel.
Proof.
  eapply (non_pairs_single_common_key cp_prefix_classifier toy_pearson draw_1_0 9
            example_one_mechanism_df 1 "Metadata_moa" "Metadata_broad_sample" _ (Str "A")).
  - lia.
  - vm_compute. reflexivity.
  - discriminate.
  - repeat constructor.
Defined.

(** X14.  When every group of the table has the same number of profiles,
    every value [corr_between_perturbation_non_pairs] returns is the median
    of the cross-correlation block of the two groups drawn: the slice of
    their joint correlation matrix whose rows cover the first group and
    whose columns cover the second. *)
Theorem non_pairs_balanced_cross_block infer_cp_features pearson rnd fuel df n_samples c p
    replicate_grouped n null_corr :
  replicate_table infer_cp_features (reset_index_drop df) c p = Ok replicate_grouped ->
  Forall (fun g => List.length (rg_profiles g) = n) replicate_grouped ->
  snd (corr_between_perturbation_non_pairs infer_cp_features pearson rnd fuel df
         n_samples c p) = Ok null_corr ->
  exists draws,
    Forall2 (cross_block_of_draw pearson replicate_grouped) draws null_corr.
Proof.
  intros Hrg Hbal H. unfold corr_between_perturbation_non_pairs in H. cbn [snd] in H.
  unfold replicate_table in Hrg. bind_inv Hrg. rewrite E in H. cbn [bind] in H.
  rewrite Hrg in H. cbn [bind] in H.
  pose proof (group_replicates_notna _ _ _ _ Hrg) as Hna.
  destruct (non_pairs_loop_emitted pearson rnd replicate_grouped n_samples fuel Hna _ _ _ H)
    as (draws & new & -> & Hall).
  exists draws. simpl. eapply Forall2_impl; [|exact Hall].
  intros draw v. apply (emitted_non_pair_balanced pearson rnd replicate_grouped n).
  assumption.
Qed.

Lemma non_pairs_balanced_cross_block_witness :
  exists null_corr draws,
    snd (corr_between_perturbation_non_pairs cp_prefix_classifier toy_pearson draw_1_0 2
           example_balanced_df 2 "Metadata_moa" "Metadata_broad_sample") = Ok null_corr
    /\ Forall2 (cross_block_of_draw toy_pearson
                  [ {| rg_common := Str "A"; rg_perturbation := Str "x";
                       rg_profiles := [[num 1; num 2; num 3]; [num 1; num 2; num 3]] |};
                    {| rg_common := Str "B"; rg_perturbation := Str "y";
                       rg_profiles := [[num 3; num 2; num 1]; [num 3; num 2; num 1]] |} ])
               draws null_corr.
Proof.
  destruct (non_pairs_balanced_cross_block cp_prefix_classifier toy_pearson draw_1_0 2
              example_balanced_df 2 "Metadata_moa" "Metadata_broad_sample"
              [ {| rg_common := Str "A"; rg_perturbation := Str "x";
                   rg_profiles := [[num 1; num 2; num 3]; [num 1; num 2; num 3]] |};
                {| rg_common := Str "B"; rg_perturbation := Str "y";
                   rg_profiles := [[num 3; num 2; num 1]; [num 3; num 2; num 1]] |} ]
              2%nat [Some (-2 # 2)%Q; Some (-2 # 2)%Q])
    as (draws & Hall).
  - vm_compute. reflexivity.
  - repeat constructor.
  - vm_compute. reflexivity.
  - exists [Some (-2 # 2)%Q; Some (-2 # 2)%Q], draws.
    split; [vm_compute; reflexivity | exact Hall].
Defined.

(* ------------------------------------------------------------------ *)
(** ** corr_between_perturbation_pairs: values and errors *)

Lemma mapM_app {A B : Type} (f : A -> res B) (l l' : list A) (bs : list B) :
  mapM f (l ++ l') = Ok bs ->
  exists xs ys, mapM f l = Ok xs /\ mapM f l' = Ok ys /\ bs = (xs ++ ys)%list.
Proof.
  revert bs. induction l as [|a t IH]; simpl; intros bs H.
  - exists [], bs. auto.
  - bind_inv H. inversion H; subst; clear H.
    destruct (IH _ E0) as (xs & ys & Hx & Hy & ->).
    exists (a0 :: xs), ys. rewrite E, Hx. simpl. auto.
Qed.

Lemma firstn_map_app {A B : Type} (f : A -> B) (xs ys : list A) :
  firstn (List.length xs) (map f (xs ++ ys)) = map f xs.
Proof.
  rewrite map_app, <- (length_map f xs), firstn_app, firstn_all, Nat.sub_diag.
  simpl. apply app_nil_r.
Qed.

Lemma skipn_map_app {A B : Type} (f : A -> B) (xs ys : list A) :
  skipn (List.length xs) (map f (xs ++ ys)) = map f ys.
Proof.
  rewrite map_app, <- (length_map f xs), skipn_app, skipn_all, Nat.sub_diag.
  reflexivity.
Qed.

Section PairValues.
Variable pearson : list float -> list float -> float.

(** The cross-correlation block of two profile lists holds the coefficient
    of every profile of the first with every profile of the second, and
    nothing else. *)
Lemma cross_block_median_coefficients (x y : list (list cell)) (v : float) :
  cross_block_median pearson x y = Ok v ->
  exists xs ys,
    mapM (mapM to_float) x = Ok xs
    /\ mapM (mapM to_float) y = Ok ys
    /\ v = np_nanmedian (cross_coefficients pearson xs ys).
Proof.
  unfold cross_block_median, np_corrcoef2. intro H.
  apply bind_Ok in H. destruct H as (corr & Hcorr & H).
  apply bind_Ok in H. destruct H as (block & Hblock & H).
  unfold np_corrcoef in Hcorr. apply bind_Ok in Hcorr. destruct Hcorr as (zs & Hzs & Hcorr).
  destruct (mapM_app _ _ _ _ Hzs) as (xs & ys & Hx & Hy & ->).
  exists xs, ys. split; [assumption|]. split; [assumption|].
  inversion H; subst; clear H.
  assert (Hc : (exists r, corr = Scalar r)
               \/ corr = Matrix (map (fun a => map (fun b => pearson a b) (xs ++ ys))
                                     (xs ++ ys))).
  { destruct (xs ++ ys)%list as [|r [|r' rest]]; lazy iota in Hcorr;
      injection Hcorr as <-; [right | left; eauto | right]; reflexivity. }
  destruct Hc as [(r & ->) | ->]; [discriminate Hblock|].
  unfold slice_block in Hblock. injection Hblock as <-.
  rewrite <- (mapM_length _ _ _ Hx).
  rewrite firstn_map_app. rewrite map_map.
  unfold cross_coefficients, flatten. do 2 f_equal.
  apply map_ext. intro a. apply skipn_map_app.
Qed.

Lemma pairs_loop_values (common_grouped : list common_group) :
  forall replicate_corr l,
    pairs_loop pearson common_grouped replicate_corr = Ok l ->
    exists new,
      l = (replicate_corr ++ new)%list
      /\ Forall2 (pair_value pearson)
                 (filter (fun g => Nat.leb 2 (List.length (cg_profiles g))) common_grouped)
                 new.
Proof.
  induction common_grouped as [|g rest IH]; intros acc l H; simpl in H.
  - inversion H; subst. exists []. rewrite app_nil_r. split; [reflexivity | constructor].
  - cbn [filter]. unfold Nat.ltb in H.
    destruct (Nat.leb 2 (List.length (cg_profiles g))).
    + bind_inv H. rename a into corr, a0 into block.
      destruct (IH _ _ H) as (new & -> & Hall).
      exists (np_nanmedian (flatten block) :: new).
      split; [now rewrite <- app_assoc|].
      constructor; [|assumption].
      apply cross_block_median_coefficients.
      unfold cross_block_median. rewrite E. simpl. rewrite E0. reflexivity.
    + apply (IH _ _ H).
Qed.

End PairValues.

(** X15.  When [corr_between_perturbation_pairs] returns, its values follow
    the rows of [common_grouped] that have two perturbations or more, in
    their order, and each value is the NaN-aware median of the
    coefficients of every profile of the first perturbation with every
    profile of the second: coefficients within one perturbation, and the
    perturbations after the second, never enter. *)
Theorem pairs_values_are_cross_medians infer_cp_features pearson df c p l :
  snd (corr_between_perturbation_pairs infer_cp_features pearson df c p) = Ok l ->
  exists replicate_grouped,
    replicate_table infer_cp_features df c p = Ok replicate_grouped
    /\ Forall2 (pair_value pearson)
               (filter (fun g => Nat.leb 2 (List.length (cg_profiles g)))
                       (group_common replicate_grouped))
               l.
Proof.
  unfold corr_between_perturbation_pairs, replicate_table. simpl. intro H.
  bind_inv H. rename a into pdf, a0 into replicate_grouped.
  exists replicate_grouped. rewrite E. simpl. split; [assumption|].
  destruct (pairs_loop_values pearson _ _ _ H) as (new & -> & Hall). exact Hall.
Qed.

Lemma pairs_values_are_cross_medians_witness :
  exists l replicate_grouped,
    snd (corr_between_perturbation_pairs cp_prefix_classifier toy_pearson example_pairs_df
           "Metadata_moa" "Metadata_broad_sample") = Ok l
    /\ replicate_table cp_prefix_classifier example_pairs_df
         "Metadata_moa" "Metadata_broad_sample" = Ok replicate_grouped
    /\ Forall2 (pair_value toy_pearson)
               (filter (fun g => Nat.leb 2 (List.length (cg_profiles g)))
                       (group_common replicate_grouped))
               l.
Proof.
  destruct (pairs_values_are_cross_medians cp_prefix_classifier toy_pearson example_pairs_df
              "Metadata_moa" "Metadata_broad_sample" [Some 1%Q])
    as (rg & Hrg & Hall); [vm_compute; reflexivity|].
  exists [Some 1%Q], rg. split; [vm_compute; reflexivity|]. split; assumption.
Defined.





(* ------------------------------------------------------------------ *)
(** ** get_featuredata, get_metadata and the profile frame *)

Lemma combine_map_map {A B C : Type} (f : A -> B) (g : A -> C) (l : list A) :
  combine (map f l) (map g l) = map (fun x => (f x, g x)) l.
Proof. induction l as [|x t IH]; simpl; [reflexivity | now rewrite IH]. Qed.

Lemma getitem_list_Ok (df : DataFrame) (cols : list string) (df' : DataFrame) :
  getitem_list df cols = Ok df' ->
  exists ps,
    mapM (column_loc (columns df)) cols = Ok ps
    /\ columns df' = cols
    /\ index df' = index df
    /\ values df' = map (fun r => map (fun q => cell_at q r) ps) (values df).
Proof.
  unfold getitem_list. intro H. apply bind_Ok in H. destruct H as (ps & Hps & H).
  inversion H; subst; clear H. exists ps. split; [assumption|].
  unfold index, values. simpl. rewrite !map_map. simpl.
  split; [reflexivity|]. split; reflexivity.
Qed.






(** X18.  The profile frame that the two pair correlators build has one
    row per row of the frame, in order, pairing the metadata cells of a
    row with the feature cells of the same row: a profile never leaves
    the metadata of its well. *)
Theorem make_profile_df_rows_aligned infer_cp_features df pdf :
  make_profile_df infer_cp_features df = Ok pdf ->
  exists mps fps,
    mapM (column_loc (columns df)) (meta_columns pdf) = Ok mps
    /\ infer_cp_features df true = Ok (meta_columns pdf)
    /\ (exists cols, infer_cp_features df false = Ok cols
                     /\ mapM (column_loc (columns df)) cols = Ok fps)
    /\ profile_rows pdf
       = map (fun r => (map (fun q => cell_at q r) mps, map (fun q => cell_at q r) fps))
             (values df).
Proof.
  intro H. unfold make_profile_df in H.
  apply bind_Ok in H. destruct H as (meta & Hmeta & H).
  apply bind_Ok in H. destruct H as (cols & Hcols & H).
  apply bind_Ok in H. destruct H as (feats & Hfeats & H).
  inversion H; subst; clear H. simpl.
  unfold get_metadata in Hmeta. apply bind_Ok in Hmeta.
  destruct Hmeta as (mcols & Hmcols & Hmeta).
  destruct (getitem_list_Ok _ _ _ Hmeta) as (mps & Hmps & Hmc & _ & Hmv).
  destruct (getitem_list_Ok _ _ _ Hfeats) as (fps & Hfps & _ & _ & Hfv).
  exists mps, fps. rewrite Hmc. split; [assumption|]. split; [assumption|].
  split; [eauto|]. rewrite Hmv, Hfv. apply combine_map_map.
Qed.

Lemma make_profile_df_rows_aligned_witness :
  exists pdf mps fps,
    make_profile_df cp_prefix_classifier example_df = Ok pdf
    /\ mapM (column_loc (columns example_df)) (meta_columns pdf) = Ok mps
    /\ cp_prefix_classifier example_df true = Ok (meta_columns pdf)
    /\ (exists cols, cp_prefix_classifier example_df false = Ok cols
                     /\ mapM (column_loc (columns example_df)) cols = Ok fps)
    /\ profile_rows pdf
       = map (fun r => (map (fun q => cell_at q r) mps, map (fun q => cell_at q r) fps))
             (values example_df).
Proof.
  eexists.
  destruct (make_profile_df_rows_aligned cp_prefix_classifier example_df _ eq_refl)
    as (mps & fps & H).
  exists mps, fps. split; [reflexivity | exact H].
Defined.

(* ------------------------------------------------------------------ *)
(** ** 1.compare-mpvalue.py *)

Lemma xle_refl (a : xfloat) : a <> XNaN -> xle a a = true.
Proof.
  destruct a; simpl; intro H; try reflexivity; [contradiction|].
  apply Qle_bool_iff, Qle_refl.
Qed.

Lemma xle_trans (a b c : xfloat) : xle a b = true -> xle b c = true -> xle a c = true.
Proof.
  destruct a, b, c; simpl; intros H1 H2; try discriminate; try reflexivity.
  apply Qle_bool_iff in H1, H2. apply Qle_bool_iff. eapply Qle_trans; eauto.
Qed.

Lemma xle_total (a b : xfloat) :
  a <> XNaN -> b <> XNaN -> xle a b = false -> xle b a = true.
Proof.
  destruct a, b; simpl; intros Ha Hb H; try discriminate; try reflexivity;
    try contradiction.
  apply Qle_bool_iff. apply Qlt_le_weak, Qnot_le_lt. intro Hle.
  apply Qle_bool_iff in Hle. congruence.
Qed.

Lemma xnan_dec (a : xfloat) : {a = XNaN} + {a <> XNaN}.
Proof. destruct a; [left; reflexivity | right; discriminate..]. Qed.

Lemma series_max_cons_nan (t : list xfloat) : series_max (XNaN :: t) = series_max t.
Proof. reflexivity. Qed.

Lemma series_max_cons_first (x : xfloat) (t : list xfloat) :
  x <> XNaN -> series_max t = XNaN -> series_max (x :: t) = x.
Proof.
  intros Hx Ht. change (series_max (x :: t))
    with (let m := series_max t in
          match x, m with
          | XNaN, _ => m
          | _, XNaN => x
          | _, _ => if xle m x then x else m
          end).
  rewrite Ht. destruct x; [contradiction | reflexivity..].
Qed.

Lemma series_max_cons_max (x : xfloat) (t : list xfloat) :
  x <> XNaN -> series_max t <> XNaN ->
  series_max (x :: t) = if xle (series_max t) x then x else series_max t.
Proof.
  intros Hx Ht. change (series_max (x :: t))
    with (let m := series_max t in
          match x, m with
          | XNaN, _ => m
          | _, XNaN => x
          | _, _ => if xle m x then x else m
          end).
  destruct x; [contradiction|..]; destruct (series_max t); try contradiction; reflexivity.
Qed.

(** [Series.max()] returns NaN or one of the entries. *)
Lemma series_max_In (l : list xfloat) : series_max l = XNaN \/ In (series_max l) l.
Proof.
  induction l as [|x t IH]; [now left|].
  destruct (xnan_dec x) as [->|Hx].
  - rewrite series_max_cons_nan. destruct IH as [IH|IH]; [now left | right; now right].
  - destruct (xnan_dec (series_max t)) as [Ht|Ht].
    + rewrite (series_max_cons_first x t Hx Ht). right. now left.
    + rewrite (series_max_cons_max x t Hx Ht).
      destruct (xle (series_max t) x); [right; now left|].
      destruct IH as [IH|IH]; [contradiction | right; now right].
Qed.

(** Every entry that is not NaN is at most [Series.max()]. *)
Lemma series_max_upper (l : list xfloat) (x : xfloat) :
  In x l -> x <> XNaN -> xle x (series_max l) = true.
Proof.
  induction l as [|y t IH]; intros Hin Hx; [contradiction|].
  destruct (xnan_dec y) as [->|Hy].
  - rewrite series_max_cons_nan. destruct Hin as [<-|Hin]; [contradiction | auto].
  - destruct (xnan_dec (series_max t)) as [Ht|Ht].
    + rewrite (series_max_cons_first y t Hy Ht).
      destruct Hin as [->|Hin]; [now apply xle_refl|].
      specialize (IH Hin Hx). rewrite Ht in IH. destruct x; discriminate.
    + rewrite (series_max_cons_max y t Hy Ht).
      destruct (xle (series_max t) y) eqn:Em.
      * destruct Hin as [->|Hin]; [now apply xle_refl|].
        eapply xle_trans; [apply IH; assumption | exact Em].
      * destruct Hin as [->|Hin]; [|auto].
        apply xle_total; assumption.
Qed.

Lemma loc_not_mask_In (col : list xfloat) (x : xfloat) :
  In x (loc_not_mask col (map is_posinf col)) <-> In x col /\ is_posinf x = false.
Proof.
  unfold loc_not_mask. induction col as [|y t IH]; simpl; [tauto|].
  destruct (is_posinf y) eqn:E; simpl; rewrite IH; split.
  - intros [H1 H2]. auto.
  - intros [[->|H1] H2]; [congruence | auto].
  - intros [->|[H1 H2]]; auto.
  - intros [[->|H1] H2]; auto.
Qed.

Lemma loc_mask_assign_shape (col : list xfloat) (v : xfloat) :
  Forall2 (fun x y => y = if is_posinf x then v else x)
          col (loc_mask_assign col (map is_posinf col) v).
Proof.
  unfold loc_mask_assign. induction col as [|x t IH]; simpl; constructor; auto.
Qed.

Lemma assign_no_posinf (v : xfloat) (l l' : list xfloat) :
  is_posinf v = false ->
  Forall2 (fun x y => y = if is_posinf x then v else x) l l' ->
  Forall (fun y => is_posinf y = false) l'.
Proof.
  intros Hv H. induction H as [|x y l l' Hxy _ IH]; constructor; [|assumption].
  subst y. destruct (is_posinf x) eqn:E; assumption.
Qed.

Lemma assign_bounded (v : xfloat) (P : xfloat -> Prop) (l l' : list xfloat) :
  (v = XNaN \/ xle v v = true) ->
  Forall2 (fun x y => y = if is_posinf x then v else x) l l' ->
  (forall x, P x -> is_posinf x = false -> x = XNaN \/ xle x v = true) ->
  Forall P l ->
  Forall (fun y => y = XNaN \/ xle y v = true) l'.
Proof.
  intros Hv H Hup Hall. induction H as [|x y l l' Hxy _ IH]; constructor.
  - subst y. inversion Hall; subst. destruct (is_posinf x) eqn:E; auto.
  - apply IH. now inversion Hall.
Qed.

(** X20.  After the cap of cell In[4], the column [mp_value_neglog] has
    its length, holds no [+inf], keeps every entry that was not [+inf],
    and none of its entries exceeds the value put in place of [+inf], the
    largest of the other entries. *)
Theorem cap_infinite_neglog_spec (mp_value_neglog : list xfloat) :
  let capped := cap_infinite_neglog mp_value_neglog in
  let cap := series_max (loc_not_mask mp_value_neglog (map is_posinf mp_value_neglog)) in
  List.length capped = List.length mp_value_neglog
  /\ Forall (fun y => is_posinf y = false) capped
  /\ Forall2 (fun x y => y = if is_posinf x then cap else x) mp_value_neglog capped
  /\ Forall (fun y => y = XNaN \/ xle y cap = true) capped.
Proof.
  intros capped cap.
  assert (Hcap : is_posinf cap = false).
  { destruct (series_max_In (loc_not_mask mp_value_neglog (map is_posinf mp_value_neglog)))
      as [E|Hin]; fold cap in E || fold cap in Hin.
    - now rewrite E.
    - now apply loc_not_mask_In in Hin. }
  assert (Hup : forall x, In x mp_value_neglog -> is_posinf x = false ->
                          x = XNaN \/ xle x cap = true).
  { intros x Hin Hx. destruct x as [| |q|]; [now left | right | right | discriminate];
      apply series_max_upper; try discriminate; now apply loc_not_mask_In. }
  pose proof (loc_mask_assign_shape mp_value_neglog cap) as Hshape.
  change (loc_mask_assign mp_value_neglog (map is_posinf mp_value_neglog) cap)
    with capped in Hshape.
  split; [symmetry; eapply Forall2_length; eauto|].
  split; [|split; [assumption|]].
  - exact (assign_no_posinf cap _ _ Hcap Hshape).
  - assert (Hcapself : cap = XNaN \/ xle cap cap = true).
    { destruct (xnan_dec cap) as [E|E]; [now left | right; now apply xle_refl]. }
    apply (assign_bounded cap (fun x => In x mp_value_neglog) _ _ Hcapself Hshape).
    + intros x Hx E. now apply Hup.
    + rewrite Forall_forall. auto.
Qed.

Lemma append_inj_l (a s1 s2 : string) : (a ++ s1 = a ++ s2)%string -> s1 = s2.
Proof.
  induction a as [|ch a IH]; simpl; intro H; [assumption|].
  injection H as H. auto.
Qed.

Lemma append_length (s t : string) :
  String.length (s ++ t) = (String.length s + String.length t)%nat.
Proof. induction s as [|ch s IH]; simpl; [reflexivity | now rewrite IH]. Qed.

Lemma append_inj_r (b s1 s2 : string) : (s1 ++ b = s2 ++ b)%string -> s1 = s2.
Proof.
  revert s2. induction s1 as [|ch s1 IH]; intros [|ch2 s2] H; simpl in H.
  - reflexivity.
  - apply (f_equal String.length) in H. simpl in H. rewrite append_length in H. lia.
  - apply (f_equal String.length) in H. simpl in H. rewrite append_length in H. lia.
  - injection H as -> H. f_equal. auto.
Qed.

(** X21.  [col_func] gives different facet labels to different values, the
    value can be read back between the header line and the final newline,
    and the label is two lines long beyond the value. *)
Theorem col_func_injective (s1 s2 : string) :
  (col_func s1 = col_func s2 -> s1 = s2)
  /\ String.length (col_func s1) = (String.length s1 + 15)%nat
  /\ String.substring 14 (String.length s1) (col_func s1) = s1.
Proof.
  split; [|split].
  - unfold col_func. intro H.
    apply append_inj_l in H. apply append_inj_l in H. now apply append_inj_r in H.
  - unfold col_func. rewrite !append_length. simpl. lia.
  - unfold col_func. simpl.
    induction s1 as [|ch s IH]; simpl; [reflexivity|]. now rewrite IH.
Qed.

(* ------------------------------------------------------------------ *)
(** ** percent_score reads its distributions as multisets *)

Lemma feq_sym (a b : float) : feq a b -> feq b a.
Proof. destruct a, b; simpl; auto. intro H. now symmetry. Qed.

Lemma feq_trans (a b c : float) : feq a b -> feq b c -> feq a c.
Proof.
  destruct a, b, c; simpl; auto; try contradiction. intros H1 H2. now rewrite H1.
Qed.

Lemma fadd_feq (a a' b b' : float) : feq a a' -> feq b b' -> feq (fadd a b) (fadd a' b').
Proof.
  destruct a, a', b, b'; simpl; auto; try contradiction. intros H1 H2. now rewrite H1, H2.
Qed.

Lemma fgt_feq (c t t' : float) : feq t t' -> fgt c t = fgt c t'.
Proof.
  destruct c, t, t'; simpl; auto; try contradiction. intro H.
  unfold Qlt_bool. now rewrite H.
Qed.

Lemma flt_feq (c t t' : float) : feq t t' -> flt c t = flt c t'.
Proof.
  unfold flt. destruct c, t, t'; simpl; auto; try contradiction. intro H.
  unfold Qlt_bool. now rewrite H.
Qed.

Lemma insert_Qeq (a : Q) (s s' : list Q) :
  Forall2 Qeq s s' -> Forall2 Qeq (insert a s) (insert a s').
Proof.
  induction 1 as [|x y s s' Hxy Hs IH]; simpl.
  - constructor; [reflexivity | constructor].
  - rewrite Hxy. destruct (Qle_bool a y).
    + constructor; [reflexivity|]. constructor; assumption.
    + constructor; assumption.
Qed.

Lemma Forall2_Qeq_refl (s : list Q) : Forall2 Qeq s s.
Proof. induction s; constructor; [reflexivity | assumption]. Qed.

Lemma Forall2_Qeq_trans (s1 s2 s3 : list Q) :
  Forall2 Qeq s1 s2 -> Forall2 Qeq s2 s3 -> Forall2 Qeq s1 s3.
Proof.
  intro H. revert s3. induction H as [|x y s s' Hxy _ IH]; intros s3 H3;
    inversion H3; subst; constructor.
  - now rewrite Hxy.
  - auto.
Qed.

(** Two insertions commute, up to the order of equal numbers. *)
Lemma insert_insert (a b : Q) (s : list Q) :
  Forall2 Qeq (insert a (insert b s)) (insert b (insert a s)).
Proof.
  induction s as [|y t IH]; simpl.
  - destruct (Qle_bool a b) eqn:Eab, (Qle_bool b a) eqn:Eba; simpl.
    + apply Qle_bool_iff in Eab, Eba.
      assert (a == b)%Q by (apply Qle_antisym; assumption).
      repeat constructor; [assumption | now symmetry].
    + apply Forall2_Qeq_refl.
    + apply Forall2_Qeq_refl.
    + exfalso. destruct (Qlt_le_dec a b) as [H|H].
      * apply Qlt_le_weak, Qle_bool_iff in H. congruence.
      * apply Qle_bool_iff in H. congruence.
  - destruct (Qle_bool b y) eqn:Eby, (Qle_bool a y) eqn:Eay; simpl;
      rewrite ?Eby, ?Eay.
    + destruct (Qle_bool a b) eqn:Eab, (Qle_bool b a) eqn:Eba; simpl;
        rewrite ?Eby, ?Eay.
      * apply Qle_bool_iff in Eab, Eba.
        assert (a == b)%Q by (apply Qle_antisym; assumption).
        constructor; [assumption|]. constructor; [now symmetry|].
        apply Forall2_Qeq_refl.
      * apply Forall2_Qeq_refl.
      * apply Forall2_Qeq_refl.
      * exfalso. destruct (Qlt_le_dec a b) as [H|H].
        -- apply Qlt_le_weak, Qle_bool_iff in H. congruence.
        -- apply Qle_bool_iff in H. congruence.
    + assert (Eba : Qle_bool a b = false).
      { destruct (Qle_bool a b) eqn:E; [|reflexivity].
        apply Qle_bool_iff in E, Eby.
        assert (Hay : (a <= y)%Q) by (eapply Qle_trans; eauto).
        apply Qle_bool_iff in Hay. congruence. }
      rewrite Eba. simpl. rewrite ?Eay, ?Eby. apply Forall2_Qeq_refl.
    + assert (Eab : Qle_bool b a = false).
      { destruct (Qle_bool b a) eqn:E; [|reflexivity].
        apply Qle_bool_iff in E, Eay.
        assert (Hby : (b <= y)%Q) by (eapply Qle_trans; eauto).
        apply Qle_bool_iff in Hby. congruence. }
      rewrite Eab. simpl. rewrite ?Eay, ?Eby. apply Forall2_Qeq_refl.
    + constructor; [reflexivity | exact IH].
Qed.

(** Sorting reads a list as a multiset. *)
Lemma sort_Permutation (l l' : list Q) :
  Permutation l l' -> Forall2 Qeq (sort l) (sort l').
Proof.
  induction 1 as [|x l l' _ IH|x y l|l1 l2 l3 _ IH1 _ IH2]; simpl.
  - constructor.
  - now apply insert_Qeq.
  - apply insert_insert.
  - eapply Forall2_Qeq_trans; eauto.
Qed.

Lemma drop_nan_Permutation (l l' : list float) :
  Permutation l l' -> Permutation (drop_nan l) (drop_nan l').
Proof.
  induction 1 as [|[x|] l l' _ IH|[x|] [y|] l|l1 l2 l3 _ IH1 _ IH2]; simpl;
    try (constructor; assumption); try apply Permutation_refl; try assumption.
  eapply Permutation_trans; eauto.
Qed.

Lemma nth_Qeq (s s' : list Q) :
  Forall2 Qeq s s' -> forall i, (nth i s 0 == nth i s' 0)%Q.
Proof.
  induction 1 as [|x y s s' Hxy _ IH]; intros [|i]; simpl; try reflexivity; auto.
Qed.

Lemma interpolate_at_Qeq (s s' : list Q) (h : Q) :
  Forall2 Qeq s s' -> (interpolate_at s h == interpolate_at s' h)%Q.
Proof.
  intro H. unfold interpolate_at. cbv zeta. rewrite !lerp_linear.
  rewrite (Forall2_length H).
  rewrite (nth_Qeq s s' H (Z.to_nat (Qfloor h))).
  rewrite (nth_Qeq s s' H
             (Z.to_nat (Z.min (Qfloor h + 1) (Z.of_nat (List.length s') - 1)))).
  reflexivity.
Qed.

Lemma np_nanpercentile_Permutation (a a' : list float) (p : Q) :
  Permutation a a' -> feq (np_nanpercentile a p) (np_nanpercentile a' p).
Proof.
  intro H. apply drop_nan_Permutation, sort_Permutation in H.
  unfold np_nanpercentile.
  pose proof (Forall2_length H) as Hlen.
  destruct (sort (drop_nan a)) as [|x s] eqn:E, (sort (drop_nan a')) as [|x' s'] eqn:E';
    try discriminate Hlen; [exact I|].
  cbv zeta. unfold feq. rewrite Hlen. apply interpolate_at_Qeq. exact H.
Qed.

Lemma filter_length_Permutation {A : Type} (f : A -> bool) (l l' : list A) :
  Permutation l l' -> List.length (filter f l) = List.length (filter f l').
Proof.
  induction 1 as [|x l l' _ IH|x y l|l1 l2 l3 _ IH1 _ IH2]; simpl; try reflexivity.
  - destruct (f x); simpl; now rewrite IH.
  - destruct (f x), (f y); reflexivity.
  - congruence.
Qed.

Lemma mask_mean_Permutation (f f' : float -> bool) (l l' : list float) :
  (forall c, f c = f' c) -> Permutation l l' ->
  feq (np_mean (map astype_float (map f l))) (np_mean (map astype_float (map f' l'))).
Proof.
  intros Hext Hperm.
  eapply feq_trans; [apply np_mean_mask|].
  eapply feq_trans; [|apply feq_sym, np_mean_mask].
  assert (Hcases : l = [] \/ l <> []) by (destruct l; [left | right]; congruence).
  destruct Hcases as [->|Hne].
  - apply Permutation_nil in Hperm. subst. exact I.
  - assert (Hne' : l' <> []).
    { intros ->. apply Permutation_sym, Permutation_nil in Hperm. contradiction. }
    rewrite (fraction_where_nonempty f l Hne), (fraction_where_nonempty f' l' Hne').
    rewrite (filter_ext f f' Hext), (filter_length_Permutation f' l l' Hperm),
      (Permutation_length Hperm).
    simpl. reflexivity.
Qed.

(** X22.  [percent_score] reads both distributions as multisets: reordering
    [null_dist] and [corr_dist] changes neither the fraction nor a
    threshold, in any mode. *)
Theorem percent_score_order_insensitive (null_dist null_dist' corr_dist corr_dist'
    : list float) (how : string) :
  Permutation null_dist null_dist' ->
  Permutation corr_dist corr_dist' ->
  pyresult_eq (percent_score null_dist corr_dist how)
              (percent_score null_dist' corr_dist' how).
Proof.
  intros Hn Hc.
  pose proof (np_nanpercentile_Permutation _ _ 95 Hn) as H95.
  pose proof (np_nanpercentile_Permutation _ _ 5 Hn) as H5.
  assert (Hr := mask_mean_Permutation _ _ _ _
                  (fun c => fgt_feq c _ _ H95) Hc).
  assert (Hl := mask_mean_Permutation _ _ _ _
                  (fun c => flt_feq c _ _ H5) Hc).
  unfold percent_score.
  destruct (String.eqb how "right"); [split; assumption|].
  destruct (String.eqb how "left"); [split; assumption|].
  destruct (String.eqb how "both"); [|exact I].
  split; [now apply fadd_feq|]. split; assumption.
Qed.

Lemma percent_score_order_insensitive_witness :
  pyresult_eq (percent_score [Some 3%Q; NaN; Some 1%Q] [Some 5%Q; Some 0%Q] "both")
              (percent_score [NaN; Some 1%Q; Some 3%Q] [Some 0%Q; Some 5%Q] "both").
Proof.
  apply percent_score_order_insensitive.
  - apply perm_trans with [NaN; Some 3%Q; Some 1%Q]; [apply perm_swap|].
    apply perm_skip. apply perm_swap.
  - apply perm_swap.
Defined.

(* ------------------------------------------------------------------ *)
(** ** NaN entries of the observed distribution, and rows drawn twice *)

Lemma filter_length_implies {A : Type} (f g : A -> bool) (l : list A) :
  (forall x, f x = true -> g x = true) ->
  (List.length (filter f l) <= List.length (filter g l))%nat.
Proof.
  intro H. induction l as [|x t IH]; simpl; [lia|].
  destruct (f x) eqn:E.
  - rewrite (H x E). simpl. lia.
  - destruct (g x); simpl; lia.
Qed.

Lemma drop_nan_length (l : list float) :
  List.length (drop_nan l)
  = List.length (filter (fun c => match c with Some _ => true | None => false end) l).
Proof. induction l as [|[x|] t IH]; simpl; [reflexivity| |]; now rewrite IH. Qed.

Lemma mask_fraction_numbers (f : float -> bool) (l : list float) :
  (forall c, f c = true -> c <> NaN) ->
  l <> [] ->
  exists v, np_mean (map astype_float (map f l)) = Some v
            /\ (v <= inject_Z (Z.of_nat (List.length (drop_nan l)))
                     / inject_Z (Z.of_nat (List.length l)))%Q.
Proof.
  intros Hf Hne. destruct (fraction_where_value f l Hne) as (v & Hv & Hq).
  exists v. split; [assumption|]. rewrite Hq.
  assert (Hn : (0 < inject_Z (Z.of_nat (List.length l)))%Q).
  { rewrite <- (Zlt_Qlt 0). destruct l; [contradiction | simpl; lia]. }
  assert (Hle : (inject_Z (Z.of_nat (List.length (filter f l)))
                 <= inject_Z (Z.of_nat (List.length (drop_nan l))))%Q).
  { rewrite <- Zle_Qle, drop_nan_length. apply inj_le.
    apply filter_length_implies. intros [c|] Hc; [reflexivity|].
    exfalso. now apply (Hf None Hc). }
  apply Qle_shift_div_l; [assumption|].
  unfold Qdiv. rewrite <- Qmult_assoc, (Qmult_comm (/ _)), Qmult_inv_r, Qmult_1_r;
    [assumption|].
  intro E. rewrite E in Hn. discriminate Hn.
Qed.

(** X23.  A NaN entry of [corr_dist] is never counted beyond a threshold
    but stays in the denominator: for a non-empty [corr_dist] the fraction
    of modes ['right'] and ['left'] is at most the share of entries of
    [corr_dist] that are numbers. *)
Theorem percent_score_nan_entries_dilute (null_dist corr_dist : list float) :
  corr_dist <> [] ->
  let share := (inject_Z (Z.of_nat (List.length (drop_nan corr_dist)))
                / inject_Z (Z.of_nat (List.length corr_dist)))%Q in
  (exists f t, percent_score null_dist corr_dist "right" = Tuple2 (Some f) t
               /\ (f <= share)%Q)
  /\ (exists f t, percent_score null_dist corr_dist "left" = Tuple2 (Some f) t
                  /\ (f <= share)%Q).
Proof.
  intros Hne share. split.
  - destruct (mask_fraction_numbers (fun c => fgt c (np_nanpercentile null_dist 95))
                corr_dist) as (v & Hv & Hb); [|assumption|].
    { intros [c|] Hc; [discriminate | discriminate Hc]. }
    exists v, (np_nanpercentile null_dist 95). split; [|exact Hb].
    unfold percent_score. simpl String.eqb. cbv iota zeta. now rewrite Hv.
  - destruct (mask_fraction_numbers (fun c => flt c (np_nanpercentile null_dist 5))
                corr_dist) as (v & Hv & Hb); [|assumption|].
    { intros [c|] Hc; [discriminate|]. unfold flt in Hc.
      destruct (np_nanpercentile null_dist 5); discriminate Hc. }
    exists v, (np_nanpercentile null_dist 5). split; [|exact Hb].
    unfold percent_score. simpl String.eqb. cbv iota zeta. now rewrite Hv.
Qed.

Lemma percent_score_nan_entries_dilute_witness :
  let share := (inject_Z (Z.of_nat (List.length (drop_nan [Some 9%Q; NaN; NaN])))
                / inject_Z (Z.of_nat (List.length [Some 9%Q; NaN; NaN])))%Q in
  (exists f t, percent_score [Some 1%Q; Some 2%Q] [Some 9%Q; NaN; NaN] "right"
               = Tuple2 (Some f) t /\ (f <= share)%Q)
  /\ (exists f t, percent_score [Some 1%Q; Some 2%Q] [Some 9%Q; NaN; NaN] "left"
                  = Tuple2 (Some f) t /\ (f <= share)%Q).
Proof.
  apply (percent_score_nan_entries_dilute [Some 1%Q; Some 2%Q] [Some 9%Q; NaN; NaN]).
  discriminate.
Defined.



